(** * sprite_builder_native: the MaxRects packer

    A shallow embedding of the rectangle packer of
    [sprite_builder_native.py] (class [MaxRectsBin] and function
    [pack_rectangles]) and the properties of its specification, followed
    by the functions around it that do not depend on the contents of an
    image: the positions of [make_sprite], the text of [generate_css] and
    the choice of the encoding in [optimize_and_save].

    Python integers are unbounded, so every coordinate and size is a [Z].
    A rectangle is the tuple [(x, y, w, h)] of the source.  The mutable
    attributes of a [MaxRectsBin] object are threaded explicitly: a method
    takes the bin and returns its result together with the bin it leaves
    behind.  The [while True] loop of [pack_rectangles] is run on fuel. *)

From Stdlib Require Import String Ascii DecimalString ZArith List Bool Lia.
From Stdlib Require Import Permutation Sorted Relations.
Import ListNotations.
Open Scope Z_scope.

(* ================================================================== *)
(** ** Rectangles *)

Definition Rect : Type := (Z * Z * Z * Z)%type.

Definition rx (r : Rect) : Z := let '(x, _, _, _) := r in x.
Definition ry (r : Rect) : Z := let '(_, y, _, _) := r in y.
Definition rw (r : Rect) : Z := let '(_, _, w, _) := r in w.
Definition rh (r : Rect) : Z := let '(_, _, _, h) := r in h.

(** [enumerate(l)]: the elements of [l] paired with their positions. *)
Definition enumerate {A : Type} (l : list A) : list (nat * A) :=
  combine (seq 0 (length l)) l.

(* ================================================================== *)
(** ** class MaxRectsBin *)

Module MaxRectsBin.

(** The attributes of an instance. *)
Record t : Type := mk {
  width : Z;
  height : Z;
  free_rects : list Rect
}.

(** [__init__(self, width, height)] *)
Definition __init__ (width height : Z) : t :=
  mk width height [(0, 0, width, height)].

(** [_overlaps(a, b)] *)
Definition _overlaps (a b : Rect) : bool :=
  (rx a <? rx b + rw b) && (rx a + rw a >? rx b) &&
  (ry a <? ry b + rh b) && (ry a + rh a >? ry b).

(** [_split(free, used)]: the strips are appended in the order left,
    right, top, bottom. *)
Definition _split (free used : Rect) : list Rect :=
  let '(fx, fy, fw, fh) := free in
  let '(ux, uy, uw, uh) := used in
  (if ux >? fx then [(fx, fy, ux - fx, fh)] else []) ++
  (if ux + uw <? fx + fw
   then [(ux + uw, fy, (fx + fw) - (ux + uw), fh)] else []) ++
  (if uy >? fy then [(fx, fy, fw, uy - fy)] else []) ++
  (if uy + uh <? fy + fh
   then [(fx, uy + uh, fw, (fy + fh) - (uy + uh))] else []).

(** The test of the inner loop of [_prune]: [a] lies inside [b]. *)
Definition inside (a b : Rect) : bool :=
  (rx a >=? rx b) && (ry a >=? ry b) &&
  (rx a + rw a <=? rx b + rw b) &&
  (ry a + rh a <=? ry b + rh b).

(** The inner loop of [_prune] for the entry [a] at position [i]: the
    flag [contained] after scanning the whole list. *)
Definition contained (l : list Rect) (i : nat) (a : Rect) : bool :=
  existsb (fun '(j, b) => negb (Nat.eqb i j) && inside a b) (enumerate l).

(** [_prune], as a function of the free list. *)
Definition _prune (l : list Rect) : list Rect :=
  map snd (filter (fun '(i, a) => negb (contained l i a)) (enumerate l)).

(** One iteration of the first loop of [place].  [best_rect] and
    [best_score] are set together, so they are kept as one optional
    pair. *)
Definition best_step (w h : Z) (best : option (Rect * Z)) (fr : Rect)
  : option (Rect * Z) :=
  let fw := rw fr in
  let fh := rh fr in
  if (w <=? fw) && (h <=? fh) then
    let score := fw * fh - w * h in
    match best with
    | None => Some (fr, score)
    | Some (_, best_score) =>
        if score <? best_score then Some (fr, score) else best
    end
  else best.

Definition best_fit (l : list Rect) (w h : Z) : option (Rect * Z) :=
  fold_left (best_step w h) l None.

(** One iteration of the second loop of [place]: what the entry [fr]
    contributes to [new_free]. *)
Definition pieces (placed fr : Rect) : list Rect :=
  if _overlaps fr placed then _split fr placed else [fr].

(** The second loop of [place]: the list [new_free]. *)
Definition split_free (l : list Rect) (placed : Rect) : list Rect :=
  flat_map (pieces placed) l.

(** [place(self, w, h)]: the returned value and the bin afterwards. *)
Definition place (self : t) (w h : Z) : option (Z * Z) * t :=
  match best_fit (free_rects self) w h with
  | None => (None, self)
  | Some (best_rect, _) =>
      let x := rx best_rect in
      let y := ry best_rect in
      let placed := (x, y, w, h) in
      let new_free := split_free (free_rects self) placed in
      (Some (x, y), mk (width self) (height self) (_prune new_free))
  end.

End MaxRectsBin.

(* ================================================================== *)
(** ** Outcomes of a call *)

(** A call returns, raises a Python exception (named by its class), or is
    still running when the fuel of the model runs out. *)
Inductive outcome (A : Type) : Type :=
| Ok (a : A)
| Raised (exn : string)
| OutOfFuel.

Arguments Ok {A} a.
Arguments Raised {A} exn.
Arguments OutOfFuel {A}.

Definition bind {A B : Type} (m : outcome A) (k : A -> outcome B) : outcome B :=
  match m with
  | Ok a => k a
  | Raised e => Raised e
  | OutOfFuel => OutOfFuel
  end.

Notation "x <- m ;; k" := (bind m (fun x => k))
  (at level 61, m at next level, right associativity).

(** [sum(...)] over integers. *)
Definition py_sum (l : list Z) : Z := fold_left Z.add l 0.

(** [max(...)] over integers: a [ValueError] on an empty sequence. *)
Definition py_max (l : list Z) : outcome Z :=
  match l with
  | [] => Raised "ValueError"
  | x :: xs => Ok (fold_left Z.max xs x)
  end.

(** The first integer too large to convert to a float: it rounds to
    [2^1024], past the largest double [2^1024 - 2^971]. *)
Definition float_limit : Z := 2 ^ 1024 - 2 ^ 970.

(** The conversion of a non-negative integer below [float_limit] to a
    float: the nearest double, ties to the even mantissa.  Up to [2^53]
    the integer is kept; above, it is rounded to 53 significant bits.
    The result is an integer again and is given as such. *)
Definition float_of_int (n : Z) : Z :=
  let e := Z.log2 n - 52 in
  if e <=? 0 then n
  else
    let q := n / 2 ^ e in
    let r := n mod 2 ^ e in
    let half := 2 ^ (e - 1) in
    let q := if r <? half then q
             else if half <? r then q + 1
             else if Z.even q then q else q + 1 in
    q * 2 ^ e.

(** [int(math.sqrt(x))] for a float [x >= 0] of integer value: the
    square root rounded to the nearest double, ties to even, then
    truncated.  With [2^k <= sqrt x < 2^(k+1)] the rounded root is
    [j * 2^(k-52)] for the integer [j] nearest to [sqrt x / 2^(k-52)]. *)
Definition float_sqrt_int (x : Z) : Z :=
  let k := Z.log2 x / 2 in
  if k <=? 52 then
    let D := 2 ^ (52 - k) in
    let y := x * D * D in
    let r := Z.sqrt y in
    let j := if y <=? r * r + r then r else r + 1 in
    j / D
  else
    let D := 2 ^ (k - 52) in
    let r := Z.sqrt x / D in
    let c := (2 * r + 1) * (2 * r + 1) * D * D in
    let j := if 4 * x <? c then r
             else if c <? 4 * x then r + 1
             else if Z.even r then r else r + 1 in
    j * D.

(** [int(math.sqrt(n))] on an integer [n].  The argument is converted to
    a float first: an [OverflowError] when its magnitude is too large.
    Then a [ValueError] (math domain error) on a negative argument.
    Otherwise the rounded root, truncated; it is the exact integer square
    root for [n < 2^52] and can differ from it above. *)
Definition int_sqrt (n : Z) : outcome Z :=
  if float_limit <=? Z.abs n then Raised "OverflowError"
  else if n <? 0 then Raised "ValueError"
  else Ok (float_sqrt_int (float_of_int n)).

(** [sorted(l, key=key, reverse=True)]: descending by key; entries with
    equal keys keep their input order. *)
Fixpoint insert_desc {A : Type} (key : A -> Z) (x : A) (l : list A) : list A :=
  match l with
  | [] => [x]
  | y :: l' => if key x <? key y then y :: insert_desc key x l' else x :: y :: l'
  end.

Fixpoint sorted_reverse {A : Type} (key : A -> Z) (l : list A) : list A :=
  match l with
  | [] => []
  | x :: l' => insert_desc key x (sorted_reverse key l')
  end.

(* ================================================================== *)
(** ** pack_rectangles *)

Section Packing.

(** The decoded image carried along with each entry; the packer never
    looks inside it. *)
Variable Image : Type.

(** An input entry [(name, im, w, h)]. *)
Definition Item : Type := (string * Image * Z * Z)%type.

(** An entry of [placed]: [(name, im, x, y, w, h)]. *)
Definition Placement : Type := (string * Image * Z * Z * Z * Z)%type.

Definition item_w (t : Item) : Z := let '(_, _, w, _) := t in w.
Definition item_h (t : Item) : Z := let '(_, _, _, h) := t in h.

Definition p_name (p : Placement) : string := let '(n, _, _, _, _, _) := p in n.
Definition p_x (p : Placement) : Z := let '(_, _, x, _, _, _) := p in x.
Definition p_y (p : Placement) : Z := let '(_, _, _, y, _, _) := p in y.
Definition p_w (p : Placement) : Z := let '(_, _, _, _, w, _) := p in w.
Definition p_h (p : Placement) : Z := let '(_, _, _, _, _, h) := p in h.

(** The [for] loop over [sorted_imgs] of one attempt: [None] when it
    leaves by [break] with [success = False], otherwise the list
    [placed]. *)
Fixpoint attempt (bin : MaxRectsBin.t) (items : list Item)
         (placed : list Placement) : option (list Placement) :=
  match items with
  | [] => Some placed
  | (name, im, w, h) :: rest =>
      match MaxRectsBin.place bin w h with
      | (None, _) => None
      | (Some (x, y), bin') =>
          attempt bin' rest (placed ++ [(name, im, x, y, w, h)])
      end
  end.

(** The enlargement at the end of a failed attempt. *)
Definition grow (width height : Z) : Z * Z :=
  if width <=? height then (width * 2, height) else (width, height * 2).

(** The [while True] loop, on fuel. *)
Fixpoint pack_loop (fuel : nat) (width height : Z) (sorted_imgs : list Item)
  : outcome (list Placement) :=
  match fuel with
  | O => OutOfFuel
  | S fuel' =>
      match attempt (MaxRectsBin.__init__ width height) sorted_imgs [] with
      | Some placed => Ok placed
      | None =>
          let '(width', height') := grow width height in
          pack_loop fuel' width' height' sorted_imgs
      end
  end.

(** The computation before the loop: the first bin size. *)
Definition initial_size (imgs : list Item) : outcome (Z * Z) :=
  let total_area := py_sum (map (fun t => item_w t * item_h t) imgs) in
  max_img_w <- py_max (map item_w imgs) ;;
  max_img_h <- py_max (map item_h imgs) ;;
  root <- int_sqrt total_area ;;
  let side := root + 1 in
  Ok (Z.max side max_img_w, Z.max side max_img_h).

Definition sort_key (t : Item) : Z := Z.max (item_w t) (item_h t).

Definition pack_rectangles (fuel : nat) (imgs : list Item)
  : outcome (list Placement * Z * Z) :=
  size <- initial_size imgs ;;
  let '(width, height) := size in
  let sorted_imgs := sorted_reverse sort_key imgs in
  placed <- pack_loop fuel width height sorted_imgs ;;
  final_w <- py_max (map (fun p => p_x p + p_w p) placed) ;;
  final_h <- py_max (map (fun p => p_y p + p_h p) placed) ;;
  Ok (placed, final_w, final_h).

End Packing.

Arguments attempt {Image}.
Arguments pack_loop {Image}.
Arguments initial_size {Image}.
Arguments sort_key {Image}.
Arguments pack_rectangles {Image}.
Arguments item_w {Image}.
Arguments item_h {Image}.
Arguments p_name {Image}.
Arguments p_x {Image}.
Arguments p_y {Image}.
Arguments p_w {Image}.
Arguments p_h {Image}.


(* ================================================================== *)
(** ** make_sprite *)

Section Sprite.

(** The Pillow side of [make_sprite], taken as given: the canvas type and
    colour, [Image.new("RGBA", (w, h), bg)], [im.resize((w, h),
    Image.NEAREST)] and [sprite.paste(im, (x, y), mask)], the last as the
    canvas it leaves. *)
Variables Image Canvas Color : Type.
Variable Image_new : Z -> Z -> Color -> Canvas.
Variable resize : Image -> Z -> Z -> Image.
Variable paste : Canvas -> Image -> Z -> Z -> Image -> Canvas.

(** One iteration of the loop of [make_sprite], on the pair
    [(sprite, positions)]. *)
Definition make_sprite_step (upscale : Z)
           (state : Canvas * list (string * Z * Z)) (p : Placement Image)
  : Canvas * list (string * Z * Z) :=
  let '(sprite, positions) := state in
  let '(name, im, x, y, w, h) := p in
  let im := if upscale >? 1 then resize im (w * upscale) (h * upscale) else im in
  (paste sprite im (x * upscale) (y * upscale) im,
   positions ++ [(name, - x, - y)]).

(** [make_sprite(packed_imgs, sprite_w, sprite_h, upscale, bg)] *)
Definition make_sprite (packed_imgs : list (Placement Image))
           (sprite_w sprite_h upscale : Z) (bg : Color)
  : Canvas * list (string * Z * Z) :=
  let out_w := sprite_w * upscale in
  let out_h := sprite_h * upscale in
  let sprite := Image_new out_w out_h bg in
  fold_left (make_sprite_step upscale) packed_imgs (sprite, []).

End Sprite.

Arguments make_sprite_step {Image Canvas}.
Arguments make_sprite {Image Canvas Color}.

(* ================================================================== *)
(** ** generate_css *)

(** The line feed. *)
Definition LF : string := String (Ascii.ascii_of_nat 10) EmptyString.

(** An integer in a formatted string literal: decimal, with a minus sign
    when negative. *)
Definition fmt_int (n : Z) : string := NilZero.string_of_int (Z.to_int n).

(** The entries that [generate_css] appends before its loop. *)
Definition css_head (sprite_w sprite_h max_w max_h : Z)
           (normal_name retina_name : string) : list string :=
  [ ".sprite {";
    "  background-image: url('" ++ normal_name ++ "');";
    "  background-repeat: no-repeat;";
    "  display: inline-block;";
    "  width: " ++ fmt_int max_w ++ "px;";
    "  height: " ++ fmt_int max_h ++ "px;";
    "}" ++ LF;
    ".retina {";
    "  background-image: url('" ++ retina_name ++ "');";
    "  background-size: " ++ fmt_int sprite_w ++ "px " ++ fmt_int sprite_h ++ "px;";
    "}" ++ LF ]%string.

(** One iteration of the loop of [generate_css]. *)
Definition css_step (css : list string) (pos : string * Z * Z) : list string :=
  let '(name, x, y) := pos in
  css ++ [ ".icon-" ++ name ++ " {";
           "  background-position: " ++ fmt_int x ++ "px " ++ fmt_int y ++ "px;";
           "}" ++ LF ]%string.

(** The list [css] at the end of [generate_css]. *)
Definition css_entries (positions : list (string * Z * Z))
           (sprite_w sprite_h max_w max_h : Z)
           (normal_name retina_name : string) : list string :=
  fold_left css_step positions
            (css_head sprite_w sprite_h max_w max_h normal_name retina_name).

(** [generate_css(positions, sprite_w, sprite_h, max_w, max_h,
    normal_name, retina_name)] *)
Definition generate_css (positions : list (string * Z * Z))
           (sprite_w sprite_h max_w max_h : Z)
           (normal_name retina_name : string) : string :=
  String.concat LF
    (css_entries positions sprite_w sprite_h max_w max_h normal_name retina_name).

(* ================================================================== *)
(** ** optimize_and_save: the choice of the encoding *)

(** [min(d, key=...)] over the keys of a non-empty dictionary, here over
    its entries in insertion order: the first entry of least key value. *)
Definition min_by {A : Type} (key : A -> nat) (x : A) (xs : list A) : A :=
  fold_left (fun best y => if Nat.ltb (key y) (key best) then y else best) xs x.

(** The dictionary [candidates] of [optimize_and_save], given the bytes of
    the true-colour encoding and those of the palette encoding, [None]
    when [quantize] raised.  The encoders of Pillow are outside the
    model. *)
Definition candidates (truecolor : list Byte.byte)
           (palette : option (list Byte.byte))
  : list (string * list Byte.byte) :=
  ("truecolor"%string, truecolor) ::
  match palette with
  | Some data => [("palette"%string, data)]
  | None => []
  end.

(** [(best_name, best_data)] as [optimize_and_save] computes them before
    it writes the file. *)
Definition best_candidate (truecolor : list Byte.byte)
           (palette : option (list Byte.byte)) : string * list Byte.byte :=
  match candidates truecolor palette with
  | [] => (EmptyString, [])
  | c :: cs => min_by (fun e => length (snd e)) c cs
  end.

(* ================================================================== *)
(** ** Geometry and the predicates of the specification *)

(** [a] lies inside [b] on all four bounds. *)
Definition Inside (a b : Rect) : Prop :=
  rx b <= rx a /\ ry b <= ry a /\
  rx a + rw a <= rx b + rw b /\ ry a + rh a <= ry b + rh b.

(** Two-dimensional interval disjointness: the rectangles are apart on at
    least one axis. *)
Definition Disjoint (a b : Rect) : Prop :=
  rx a + rw a <= rx b \/ rx b + rw b <= rx a \/
  ry a + rh a <= ry b \/ ry b + rh b <= ry a.

Definition positive_size (r : Rect) : Prop := 0 < rw r /\ 0 < rh r.

Definition positive_sizeb (r : Rect) : bool := (0 <? rw r) && (0 <? rh r).

(** [r] lies within [[0, W] x [0, H]]. *)
Definition within (W H : Z) (r : Rect) : Prop :=
  0 <= rx r /\ 0 <= ry r /\ rx r + rw r <= W /\ ry r + rh r <= H.

(** A request [(w, h)] fits the free rectangle [fr]: the test of the first
    loop of [place]. *)
Definition fits (w h : Z) (fr : Rect) : Prop := w <= rw fr /\ h <= rh fr.

(** The score of [fr] for the request [(w, h)]. *)
Definition waste (w h : Z) (fr : Rect) : Z := rw fr * rh fr - w * h.

(** The four slivers of [free] outside the extent of [used], as the
    specification names them: left, right, top, bottom. *)
Definition residual_strips (free used : Rect) : list Rect :=
  [ (rx free, ry free, rx used - rx free, rh free);
    (rx used + rw used, ry free,
     (rx free + rw free) - (rx used + rw used), rh free);
    (rx free, ry free, rw free, ry used - ry free);
    (rx free, ry used + rh used, rw free,
     (ry free + rh free) - (ry used + rh used)) ].

(** No entry repeats and none lies inside another. *)
Definition Antichain (l : list Rect) : Prop :=
  NoDup l /\ forall a b, In a l -> In b l -> Inside a b -> a = b.

(** The invariant of the free list. *)
Definition free_ok (b : MaxRectsBin.t) : Prop :=
  Forall (fun r => positive_size r /\
                   within (MaxRectsBin.width b) (MaxRectsBin.height b) r)
         (MaxRectsBin.free_rects b).

(** The bins a program can hold: built by [__init__] with positive sizes
    and changed by [place] only. *)
Inductive reachable : MaxRectsBin.t -> Prop :=
| reach_init W H : 0 < W -> 0 < H -> reachable (MaxRectsBin.__init__ W H)
| reach_place b w h : reachable b -> reachable (snd (MaxRectsBin.place b w h)).

(** The rectangle of a placement. *)
Definition p_rect {Image : Type} (p : Placement Image) : Rect :=
  (p_x p, p_y p, p_w p, p_h p).

(** Entries at different positions are disjoint. *)
Definition pairwise_disjoint (l : list Rect) : Prop :=
  forall i j a b, i <> j ->
    nth_error l i = Some a -> nth_error l j = Some b -> Disjoint a b.

(** What the loop has found after scanning [l]: the first entry of least
    waste among those the request fits. *)
Definition first_best (l : list Rect) (w h : Z) (fr : Rect) (i : nat) : Prop :=
  nth_error l i = Some fr /\ fits w h fr /\
  (forall j fr', nth_error l j = Some fr' -> fits w h fr' ->
                 waste w h fr <= waste w h fr') /\
  (forall j fr', (j < i)%nat -> nth_error l j = Some fr' -> fits w h fr' ->
                 waste w h fr < waste w h fr').

(** The state of one attempt, between two iterations of its loop: the
    free list is apart from everything placed so far, the placed
    rectangles are pairwise apart, and each lies inside the bin. *)
Definition attempt_ok {Image : Type} (b : MaxRectsBin.t)
           (placed : list (Placement Image)) : Prop :=
  (forall fr p, In fr (MaxRectsBin.free_rects b) -> In p placed ->
                Disjoint fr (p_rect p)) /\
  pairwise_disjoint (map p_rect placed) /\
  (forall p, In p placed ->
             within (MaxRectsBin.width b) (MaxRectsBin.height b) (p_rect p)).

(** The free strip at the right of the bin: no free rectangle starts to
    the right of the column [X], and while [X] is inside the bin one free
    rectangle spans the full height from [X] to the right edge. *)
Definition right_margin (b : MaxRectsBin.t) (X : Z) : Prop :=
  (forall fr, In fr (MaxRectsBin.free_rects b) -> rx fr <= X) /\
  (X < MaxRectsBin.width b ->
   exists R, In R (MaxRectsBin.free_rects b) /\
             rx R <= X /\ ry R <= 0 /\
             MaxRectsBin.width b <= rx R + rw R /\
             MaxRectsBin.height b <= ry R + rh R).

(** The loop of [pack_rectangles] returns from the size [(W, H)]. *)
Definition loop_returns {Image : Type} (sorted_imgs : list (Item Image))
           (W H : Z) : Prop :=
  exists fuel placed, pack_loop fuel W H sorted_imgs = Ok placed.

(** The cell [(px, py)] lies in the rectangle [r], taken half-open. *)
Definition covers (r : Rect) (px py : Z) : Prop :=
  rx r <= px < rx r + rw r /\ ry r <= py < ry r + rh r.

(** A bin together with the rectangles placed into it so far: a fresh bin
    holds none, and each successful [place] adds the rectangle put at the
    returned position. *)
Inductive packed_bin : MaxRectsBin.t -> list Rect -> Prop :=
| packed_init W H : packed_bin (MaxRectsBin.__init__ W H) []
| packed_place b rs w h x y b' :
    packed_bin b rs ->
    MaxRectsBin.place b w h = (Some (x, y), b') ->
    packed_bin b' (rs ++ [(x, y, w, h)]).

(** The input entry that a placement carries. *)
Definition p_item {Image : Type} (p : Placement Image) : Item Image :=
  let '(name, im, _, _, w, h) := p in (name, im, w, h).

(** The unit cells of a rectangle with natural coordinates. *)
Definition cells (x y w h : nat) : list (nat * nat) :=
  list_prod (seq x w) (seq y h).

Definition rect_cells (r : Rect) : list (nat * nat) :=
  cells (Z.to_nat (rx r)) (Z.to_nat (ry r)) (Z.to_nat (rw r)) (Z.to_nat (rh r)).

Definition item_name {Image : Type} (t : Item Image) : string :=
  let '(name, _, _, _) := t in name.

(** The text that one icon adds to the style sheet: after a line feed,
    its selector line, its [background-position] line and the closing
    brace, each ended by a line feed. *)
Definition css_rule_text (pos : string * Z * Z) : string :=
  let '(name, x, y) := pos in
  (LF ++ ".icon-" ++ name ++ " {" ++ LF ++
   "  background-position: " ++ fmt_int x ++ "px " ++ fmt_int y ++ "px;" ++ LF ++
   "}" ++ LF)%string.

(** The size of the bin at attempt number [n] of the loop, counted from
    zero, when the first size is [(W, H)]: each attempt before it was
    followed by one enlargement. *)
Definition attempt_size (W H : Z) (n : nat) : Z * Z :=
  Nat.iter n (fun size => grow (fst size) (snd size)) (W, H).

(** What attempt number [n] gives. *)
Definition nth_attempt {Image : Type} (sorted_imgs : list (Item Image))
           (W H : Z) (n : nat) : option (list (Placement Image)) :=
  attempt (MaxRectsBin.__init__ (fst (attempt_size W H n))
                                (snd (attempt_size W H n)))
          sorted_imgs [].

(* ================================================================== *)
(** ** Tactics *)

Ltac bools :=
  repeat match goal with
  | H : _ && _ = true |- _ => apply andb_true_iff in H; destruct H
  | H : _ && _ = false |- _ => apply andb_false_iff in H
  | H : negb _ = true |- _ => apply negb_true_iff in H
  | H : negb _ = false |- _ => apply negb_false_iff in H
  | H : (_ <? _) = true |- _ => apply Z.ltb_lt in H
  | H : (_ <? _) = false |- _ => apply Z.ltb_ge in H
  | H : (_ <=? _) = true |- _ => apply Z.leb_le in H
  | H : (_ <=? _) = false |- _ => apply Z.leb_gt in H
  | H : (_ >? _) = true |- _ => apply Z.gtb_lt in H
  | H : (_ >? _) = false |- _ => rewrite Z.gtb_ltb in H; apply Z.ltb_ge in H
  | H : (_ >=? _) = true |- _ => apply Z.geb_le in H
  | H : (_ >=? _) = false |- _ => rewrite Z.geb_leb in H; apply Z.leb_gt in H
  end.

(** Open every rectangle in sight into its four coordinates. *)
Ltac open_rects :=
  repeat match goal with
  | r : Rect |- _ => destruct r as [[[? ?] ?] ?]
  end;
  unfold Inside, Disjoint, positive_size, within, fits, waste in *;
  cbn [rx ry rw rh] in *.

Ltac geometry := open_rects; bools; try lia.

(* ================================================================== *)
(** ** The boolean tests of the source *)

Lemma overlaps_true a b :
  MaxRectsBin._overlaps a b = true <->
  rx a < rx b + rw b /\ rx b < rx a + rw a /\
  ry a < ry b + rh b /\ ry b < ry a + rh a.
Proof.
  unfold MaxRectsBin._overlaps.
  rewrite !andb_true_iff, !Z.ltb_lt, !Z.gtb_lt. tauto.
Qed.

Lemma overlaps_false a b :
  MaxRectsBin._overlaps a b = false <-> Disjoint a b.
Proof.
  unfold Disjoint. split.
  - intros H. destruct (Z_le_gt_dec (rx a + rw a) (rx b)); [tauto|].
    destruct (Z_le_gt_dec (rx b + rw b) (rx a)); [tauto|].
    destruct (Z_le_gt_dec (ry a + rh a) (ry b)); [tauto|].
    destruct (Z_le_gt_dec (ry b + rh b) (ry a)); [tauto|].
    assert (MaxRectsBin._overlaps a b = true) by (apply overlaps_true; lia).
    congruence.
  - intros H. destruct (MaxRectsBin._overlaps a b) eqn:E; [|reflexivity].
    apply overlaps_true in E. lia.
Qed.

Lemma inside_true a b : MaxRectsBin.inside a b = true <-> Inside a b.
Proof.
  unfold MaxRectsBin.inside, Inside.
  rewrite !andb_true_iff, !Z.geb_le, !Z.leb_le. tauto.
Qed.

Lemma Inside_refl a : Inside a a.
Proof. unfold Inside. lia. Qed.

Lemma Inside_trans a b c : Inside a b -> Inside b c -> Inside a c.
Proof. unfold Inside. lia. Qed.

Lemma Inside_Disjoint a b c : Inside a b -> Disjoint b c -> Disjoint a c.
Proof. unfold Inside, Disjoint. lia. Qed.

Lemma Disjoint_sym a b : Disjoint a b -> Disjoint b a.
Proof. unfold Disjoint. lia. Qed.

(* ================================================================== *)
(** ** enumerate *)

Lemma in_combine_seq {A : Type} (l : list A) s i a :
  In (i, a) (combine (seq s (length l)) l) <->
  (s <= i)%nat /\ nth_error l (i - s) = Some a.
Proof.
  revert s. induction l as [|x l IH]; intros s; cbn [length seq combine].
  - split; [intros []|]. intros [_ H]. now rewrite nth_error_nil in H.
  - cbn [In]. rewrite IH. split.
    + intros [E | [Hle Hn]].
      * inversion E; subst. split; [lia|]. now rewrite Nat.sub_diag.
      * split; [lia|]. replace (i - s)%nat with (S (i - S s)) by lia. exact Hn.
    + intros [Hle Hn]. destruct (Nat.eq_dec i s) as [->|Hne].
      * left. rewrite Nat.sub_diag in Hn. cbn in Hn. congruence.
      * right. split; [lia|].
        replace (i - s)%nat with (S (i - S s)) in Hn by lia. exact Hn.
Qed.

Lemma in_enumerate {A : Type} (l : list A) i a :
  In (i, a) (enumerate l) <-> nth_error l i = Some a.
Proof.
  unfold enumerate. rewrite in_combine_seq, Nat.sub_0_r.
  split; [tauto | intros; split; [lia | assumption]].
Qed.

Lemma map_fst_combine_seq {A : Type} (l : list A) s :
  map fst (combine (seq s (length l)) l) = seq s (length l).
Proof.
  revert s. induction l as [|x l IH]; intros s; cbn; [reflexivity|].
  now rewrite IH.
Qed.

Lemma NoDup_enumerate {A : Type} (l : list A) : NoDup (enumerate l).
Proof.
  apply NoDup_map_inv with (f := fst). unfold enumerate.
  rewrite map_fst_combine_seq. apply seq_NoDup.
Qed.

(* ================================================================== *)
(** ** _prune *)

Lemma contained_true l i a :
  MaxRectsBin.contained l i a = true <->
  exists j b, j <> i /\ nth_error l j = Some b /\ Inside a b.
Proof.
  unfold MaxRectsBin.contained. rewrite existsb_exists. split.
  - intros [[j b] [Hin H]]. apply in_enumerate in Hin.
    apply andb_true_iff in H as [Hij Hab].
    apply negb_true_iff, Nat.eqb_neq in Hij. apply inside_true in Hab.
    exists j, b. auto.
  - intros (j & b & Hji & Hn & Hab). exists (j, b). split.
    + now apply in_enumerate.
    + apply andb_true_iff. split.
      * apply negb_true_iff, Nat.eqb_neq. auto.
      * now apply inside_true.
Qed.

Lemma in_prune l a :
  In a (MaxRectsBin._prune l) <->
  exists i, nth_error l i = Some a /\ MaxRectsBin.contained l i a = false.
Proof.
  unfold MaxRectsBin._prune. rewrite in_map_iff. split.
  - intros [[i a'] [E Hin]]. cbn in E. subst a'.
    apply filter_In in Hin as [Hin Hc].
    apply negb_true_iff in Hc. apply in_enumerate in Hin. eauto.
  - intros (i & Hn & Hc). exists (i, a). split; [reflexivity|].
    apply filter_In. split; [now apply in_enumerate|].
    now apply negb_true_iff.
Qed.

Lemma prune_incl l a : In a (MaxRectsBin._prune l) -> In a l.
Proof.
  intros (i & Hn & _)%in_prune. eapply nth_error_In; eauto.
Qed.

(** Whatever list it is given, [_prune] leaves an antichain. *)
Lemma prune_Antichain l : Antichain (MaxRectsBin._prune l).
Proof.
  split.
  - unfold MaxRectsBin._prune.
    apply NoDup_map_NoDup_ForallPairs.
    + intros [i a] [j b] Hi Hj E. cbn in E. subst b.
      apply filter_In in Hi as [Hi Hci], Hj as [Hj _].
      apply negb_true_iff in Hci.
      destruct (Nat.eq_dec i j) as [->|Hne]; [reflexivity|].
      exfalso.
      assert (MaxRectsBin.contained l i a = true) as Ht.
      { apply contained_true. exists j, a.
        split; [auto|]. split; [now apply in_enumerate | apply Inside_refl]. }
      congruence.
    + apply NoDup_filter, NoDup_enumerate.
  - intros a b (i & Hi & Hci)%in_prune (j & Hj & _)%in_prune Hab.
    destruct (Nat.eq_dec i j) as [->|Hne]; [congruence|].
    exfalso.
    assert (MaxRectsBin.contained l i a = true) as Ht
      by (apply contained_true; exists j, b; auto).
    congruence.
Qed.

Lemma NoDup_same_index {A : Type} (l : list A) i j a :
  NoDup l -> nth_error l i = Some a -> nth_error l j = Some a -> i = j.
Proof.
  intros Hnd Hi Hj. eapply NoDup_nth_error; eauto.
  - apply nth_error_Some. congruence.
  - congruence.
Qed.

(** Proper containment makes width plus height grow. *)
Lemma Inside_proper_size a b :
  Inside a b -> a <> b -> rw a + rh a < rw b + rh b.
Proof.
  intros H Hne.
  destruct (Z_lt_le_dec (rw a + rh a) (rw b + rh b)); [assumption|].
  exfalso. apply Hne. open_rects. repeat f_equal; lia.
Qed.

(** In a list without repetitions every entry lies inside one that
    [_prune] keeps. *)
Lemma prune_keeps_cover_bounded l :
  NoDup l ->
  forall (n : nat) (M : Z),
    (forall b, In b l -> rw b + rh b <= M) ->
    forall a, In a l -> M - (rw a + rh a) <= Z.of_nat n ->
    exists c, In c (MaxRectsBin._prune l) /\ Inside a c.
Proof.
  intros Hnd n M HM. induction n as [|n IH]; intros a Ha Hn.
  - exists a. split; [|apply Inside_refl].
    apply In_nth_error in Ha as [i Hi]. apply in_prune. exists i. split; auto.
    destruct (MaxRectsBin.contained l i a) eqn:E; [|reflexivity].
    exfalso. apply contained_true in E as (j & b & Hji & Hj & Hab).
    assert (a <> b) as Hne.
    { intros ->. apply Hji. eapply NoDup_nth_error; eauto.
      apply nth_error_Some. congruence. congruence. }
    pose proof (Inside_proper_size _ _ Hab Hne).
    pose proof (HM b (nth_error_In _ _ Hj)). lia.
  - pose proof Ha as Ha'. apply In_nth_error in Ha' as [i Hi].
    destruct (MaxRectsBin.contained l i a) eqn:E.
    + apply contained_true in E as (j & b & Hji & Hj & Hab).
      assert (a <> b) as Hne.
      { intros ->. apply Hji. eapply NoDup_same_index; eauto. }
      pose proof (Inside_proper_size _ _ Hab Hne).
      destruct (IH b) as (c & Hc & Hbc).
      * eapply nth_error_In; eauto.
      * lia.
      * exists c. split; [assumption|]. eapply Inside_trans; eauto.
    + exists a. split; [|apply Inside_refl]. apply in_prune. eauto.
Qed.

Lemma size_bound (l : list Rect) :
  exists M, forall b, In b l -> rw b + rh b <= M.
Proof.
  induction l as [|x l [M HM]].
  - exists 0. intros b [].
  - exists (Z.max M (rw x + rh x)). intros b [<-|Hb]; [lia|].
    specialize (HM b Hb). lia.
Qed.

Lemma prune_cover l a :
  NoDup l -> In a l -> exists c, In c (MaxRectsBin._prune l) /\ Inside a c.
Proof.
  intros Hnd Ha. destruct (size_bound l) as [M HM].
  apply (prune_keeps_cover_bounded l Hnd (Z.to_nat (M - (rw a + rh a))) M HM a Ha).
  specialize (HM a Ha). lia.
Qed.

(* ================================================================== *)
(** ** _split and the rebuilt free list *)

Lemma in_split free used s :
  In s (MaxRectsBin._split free used) <->
  (rx free < rx used /\
   s = (rx free, ry free, rx used - rx free, rh free)) \/
  (rx used + rw used < rx free + rw free /\
   s = (rx used + rw used, ry free,
        (rx free + rw free) - (rx used + rw used), rh free)) \/
  (ry free < ry used /\
   s = (rx free, ry free, rw free, ry used - ry free)) \/
  (ry used + rh used < ry free + rh free /\
   s = (rx free, ry used + rh used, rw free,
        (ry free + rh free) - (ry used + rh used))).
Proof.
  destruct free as [[[fx fy] fw] fh], used as [[[ux uy] uw] uh].
  unfold MaxRectsBin._split. cbn [rx ry rw rh].
  rewrite !in_app_iff.
  destruct (ux >? fx) eqn:E1, (ux + uw <? fx + fw) eqn:E2,
           (uy >? fy) eqn:E3, (uy + uh <? fy + fh) eqn:E4;
    bools; cbn [In]; intuition (try lia; auto).
Qed.

(** [_split] keeps exactly the slivers of positive size. *)
Lemma split_filter_strips free used :
  positive_size free ->
  MaxRectsBin._split free used =
  filter positive_sizeb (residual_strips free used).
Proof.
  destruct free as [[[fx fy] fw] fh], used as [[[ux uy] uw] uh].
  unfold positive_size, residual_strips, MaxRectsBin._split, positive_sizeb.
  cbn [rx ry rw rh filter]. intros [Hw Hh].
  apply Z.ltb_lt in Hw as Hw', Hh as Hh'. rewrite Hw', Hh'.
  rewrite !andb_true_r.
  replace (0 <? ux - fx) with (ux >? fx)
    by (rewrite Z.gtb_ltb; destruct (fx <? ux) eqn:E, (0 <? ux - fx) eqn:F;
        bools; try reflexivity; lia).
  replace (0 <? fx + fw - (ux + uw)) with (ux + uw <? fx + fw)
    by (destruct (ux + uw <? fx + fw) eqn:E, (0 <? fx + fw - (ux + uw)) eqn:F;
        bools; try reflexivity; lia).
  replace (0 <? uy - fy) with (uy >? fy)
    by (rewrite Z.gtb_ltb; destruct (fy <? uy) eqn:E, (0 <? uy - fy) eqn:F;
        bools; try reflexivity; lia).
  replace (0 <? fy + fh - (uy + uh)) with (uy + uh <? fy + fh)
    by (destruct (uy + uh <? fy + fh) eqn:E, (0 <? fy + fh - (uy + uh)) eqn:F;
        bools; try reflexivity; lia).
  destruct (ux >? fx), (ux + uw <? fx + fw), (uy >? fy), (uy + uh <? fy + fh);
    reflexivity.
Qed.

Lemma split_length free used :
  (length (MaxRectsBin._split free used) <= 4)%nat.
Proof.
  destruct free as [[[fx fy] fw] fh], used as [[[ux uy] uw] uh].
  unfold MaxRectsBin._split.
  destruct (ux >? fx), (ux + uw <? fx + fw), (uy >? fy), (uy + uh <? fy + fh);
    cbn; lia.
Qed.

(** A strip cut from a free rectangle that overlaps [used] lies inside
    that rectangle. *)
Lemma split_Inside free used s :
  MaxRectsBin._overlaps free used = true ->
  In s (MaxRectsBin._split free used) -> Inside s free.
Proof.
  intros Ho%overlaps_true Hs%in_split.
  destruct Hs as [[? ->]|[[? ->]|[[? ->]|[? ->]]]]; geometry.
Qed.

(** Every strip is apart from [used]. *)
Lemma split_Disjoint free used s :
  In s (MaxRectsBin._split free used) -> Disjoint s used.
Proof.
  intros Hs%in_split.
  destruct Hs as [[? ->]|[[? ->]|[[? ->]|[? ->]]]]; geometry.
Qed.

Lemma split_positive free used s :
  positive_size free ->
  In s (MaxRectsBin._split free used) -> positive_size s.
Proof.
  intros Hp Hs%in_split.
  destruct Hs as [[? ->]|[[? ->]|[[? ->]|[? ->]]]]; geometry.
Qed.

(** The strips of one rectangle are all different. *)
Lemma split_NoDup free used :
  MaxRectsBin._overlaps free used = true ->
  NoDup (MaxRectsBin._split free used).
Proof.
  intros Ho%overlaps_true.
  destruct free as [[[fx fy] fw] fh], used as [[[ux uy] uw] uh].
  cbn [rx ry rw rh] in Ho. unfold MaxRectsBin._split.
  destruct (ux >? fx) eqn:E1, (ux + uw <? fx + fw) eqn:E2,
           (uy >? fy) eqn:E3, (uy + uh <? fy + fh) eqn:E4;
    bools; cbn [app];
    repeat (constructor; [cbn [In]; intros F;
      repeat (destruct F as [F|F]; [inversion F; lia|]); exact F|]);
    constructor.
Qed.

Lemma in_split_free l used r :
  In r (MaxRectsBin.split_free l used) <->
  exists fr, In fr l /\ In r (MaxRectsBin.pieces used fr).
Proof. unfold MaxRectsBin.split_free. apply in_flat_map. Qed.

Lemma pieces_Inside used fr r :
  In r (MaxRectsBin.pieces used fr) -> Inside r fr.
Proof.
  unfold MaxRectsBin.pieces.
  destruct (MaxRectsBin._overlaps fr used) eqn:E.
  - now apply split_Inside.
  - intros [<-|[]]. apply Inside_refl.
Qed.

Lemma pieces_Disjoint used fr r :
  In r (MaxRectsBin.pieces used fr) -> Disjoint r used.
Proof.
  unfold MaxRectsBin.pieces.
  destruct (MaxRectsBin._overlaps fr used) eqn:E.
  - apply split_Disjoint.
  - intros [<-|[]]. now apply overlaps_false.
Qed.

Lemma pieces_positive used fr r :
  positive_size fr -> In r (MaxRectsBin.pieces used fr) -> positive_size r.
Proof.
  unfold MaxRectsBin.pieces.
  destruct (MaxRectsBin._overlaps fr used); [apply split_positive|].
  now intros ? [<-|[]].
Qed.

Lemma pieces_NoDup used fr : NoDup (MaxRectsBin.pieces used fr).
Proof.
  unfold MaxRectsBin.pieces.
  destruct (MaxRectsBin._overlaps fr used) eqn:E.
  - now apply split_NoDup.
  - constructor; [intros []|constructor].
Qed.

(** Two entries of the free list, neither inside the other, contribute
    different pieces. *)
Lemma pieces_apart used a b r :
  ~ Inside a b -> ~ Inside b a ->
  In r (MaxRectsBin.pieces used a) -> In r (MaxRectsBin.pieces used b) -> False.
Proof.
  intros Hab Hba Ha Hb.
  pose proof (pieces_Inside _ _ _ Ha) as Ia.
  pose proof (pieces_Inside _ _ _ Hb) as Ib.
  unfold MaxRectsBin.pieces in Ha, Hb.
  destruct (MaxRectsBin._overlaps a used) eqn:Ea,
           (MaxRectsBin._overlaps b used) eqn:Eb.
  - apply overlaps_true in Ea, Eb. apply in_split in Ha, Hb.
    destruct Ha as [[? ->]|[[? ->]|[[? ->]|[? ->]]]];
    destruct Hb as [[? Hr]|[[? Hr]|[[? Hr]|[? Hr]]]];
      inversion Hr; clear Hr; geometry.
  - destruct Hb as [<-|[]]. auto.
  - destruct Ha as [<-|[]]. auto.
  - destruct Ha as [<-|[]], Hb as [<-|[]]. apply Hab, Inside_refl.
Qed.

Lemma Antichain_cons a l : Antichain (a :: l) -> Antichain l.
Proof.
  intros [Hnd H]. split; [now inversion Hnd|].
  intros x y Hx Hy. apply H; now right.
Qed.

Lemma Antichain_head a l b :
  Antichain (a :: l) -> In b l -> ~ Inside a b /\ ~ Inside b a.
Proof.
  intros [Hnd H] Hb. inversion Hnd as [|? ? Hna _]; subst.
  split; intros Hi.
  - apply Hna. rewrite (H a b); auto; [now left | now right].
  - apply Hna. rewrite <- (H b a); auto; [now right | now left].
Qed.

(** The list handed to [_prune] by [place] has no repetitions. *)
Lemma split_free_NoDup l used :
  Antichain l -> NoDup (MaxRectsBin.split_free l used).
Proof.
  induction l as [|a l IH]; intros HA; cbn.
  - constructor.
  - apply NoDup_app.
    + apply pieces_NoDup.
    + apply IH. eapply Antichain_cons; eauto.
    + intros r Hr (b & Hb & Hrb)%in_split_free.
      destruct (Antichain_head _ _ _ HA Hb) as [N1 N2].
      eapply pieces_apart; eauto.
Qed.

Lemma Antichain_init W H : Antichain (MaxRectsBin.free_rects (MaxRectsBin.__init__ W H)).
Proof.
  cbn. split.
  - constructor; [intros []|constructor].
  - intros a b [<-|[]] [<-|[]] _. reflexivity.
Qed.

(* ================================================================== *)
(** ** The first loop of place: best area fit *)

Lemma best_fit_snoc l w h fr :
  MaxRectsBin.best_fit (l ++ [fr]) w h =
  MaxRectsBin.best_step w h (MaxRectsBin.best_fit l w h) fr.
Proof. unfold MaxRectsBin.best_fit. now rewrite fold_left_app. Qed.

Lemma fits_dec w h fr :
  ((w <=? rw fr) && (h <=? rh fr) = true <-> fits w h fr).
Proof. unfold fits. rewrite andb_true_iff, !Z.leb_le. tauto.
Qed.

Lemma best_fit_None l w h :
  MaxRectsBin.best_fit l w h = None <-> forall fr, In fr l -> ~ fits w h fr.
Proof.
  induction l as [|fr l IH] using rev_ind.
  - cbn. split; [intros _ ? [] | reflexivity].
  - rewrite best_fit_snoc. unfold MaxRectsBin.best_step.
    destruct ((w <=? rw fr) && (h <=? rh fr)) eqn:E.
    + split.
      * destruct (MaxRectsBin.best_fit l w h) as [[? bs]|]; [|discriminate].
        destruct (_ <? bs); discriminate.
      * intros H. exfalso. apply (H fr); [apply in_or_app; right; now left|].
        now apply fits_dec.
    + rewrite IH. split.
      * intros H x [Hx|[<-|[]]]%in_app_or; [auto|].
        rewrite <- fits_dec. congruence.
      * intros H x Hx. apply H, in_or_app. now left.
Qed.

Lemma nth_error_snoc {A : Type} (l : list A) x j y :
  nth_error (l ++ [x]) j = Some y ->
  ((j < length l)%nat /\ nth_error l j = Some y) \/ (j = length l /\ y = x).
Proof.
  intros H. destruct (Nat.lt_ge_cases j (length l)) as [Hlt|Hge].
  - left. rewrite nth_error_app1 in H by assumption. auto.
  - right. rewrite nth_error_app2 in H by assumption.
    destruct (j - length l)%nat as [|k] eqn:E.
    + cbn in H. split; [lia | congruence].
    + cbn in H. now rewrite nth_error_nil in H.
Qed.

Lemma best_fit_Some l w h fr score :
  MaxRectsBin.best_fit l w h = Some (fr, score) ->
  score = waste w h fr /\ exists i, first_best l w h fr i.
Proof.
  revert fr score. induction l as [|x l IH] using rev_ind; intros fr score.
  - discriminate.
  - rewrite best_fit_snoc. unfold MaxRectsBin.best_step.
    destruct ((w <=? rw x) && (h <=? rh x)) eqn:E.
    + apply fits_dec in E.
      destruct (MaxRectsBin.best_fit l w h) as [[b bs]|] eqn:B.
      * destruct (IH b bs eq_refl) as [-> (i & Hi & Hf & Hmin & Hfirst)].
        assert (i < length l)%nat as Hlen
          by (apply nth_error_Some; congruence).
        destruct (rw x * rh x - w * h <? waste w h b) eqn:C;
          intros [= <- <-]; bools.
        -- split; [reflexivity|]. exists (length l).
           split; [|split; [assumption|split]].
           ++ rewrite nth_error_app2, Nat.sub_diag by lia. reflexivity.
           ++ intros j y [[_ Hy]|[_ ->]]%nth_error_snoc Hfy.
              ** specialize (Hmin j y Hy Hfy). unfold waste in *. lia.
              ** lia.
           ++ intros j y Hj [[_ Hy]|[-> _]]%nth_error_snoc Hfy; [|lia].
              specialize (Hmin j y Hy Hfy). unfold waste in *. lia.
        -- split; [reflexivity|]. exists i.
           split; [|split; [assumption|split]].
           ++ rewrite nth_error_app1 by assumption. assumption.
           ++ intros j y [[_ Hy]|[_ ->]]%nth_error_snoc Hfy.
              ** eauto.
              ** unfold waste in *. lia.
           ++ intros j y Hj [[_ Hy]|[-> _]]%nth_error_snoc Hfy; [eauto|lia].
      * intros [= <- <-]. split; [reflexivity|]. exists (length l).
        pose proof (proj1 (best_fit_None l w h) B) as Hnone.
        split; [|split; [assumption|split]].
        -- rewrite nth_error_app2, Nat.sub_diag by lia. reflexivity.
        -- intros j y [[_ Hy]|[_ ->]]%nth_error_snoc Hfy; [|lia].
           exfalso. eapply Hnone; eauto using nth_error_In.
        -- intros j y Hj [[_ Hy]|[-> _]]%nth_error_snoc Hfy; [|lia].
           exfalso. eapply Hnone; eauto using nth_error_In.
    + intros B. destruct (IH fr score B) as [-> (i & Hi & Hf & Hmin & Hfirst)].
      assert (~ fits w h x) as Hx by (rewrite <- fits_dec; congruence).
      assert (i < length l)%nat as Hlen by (apply nth_error_Some; congruence).
      split; [reflexivity|]. exists i.
      split; [|split; [assumption|split]].
      * rewrite nth_error_app1 by assumption. assumption.
      * intros j y [[_ Hy]|[_ ->]]%nth_error_snoc Hfy; [eauto|tauto].
      * intros j y Hj [[_ Hy]|[_ ->]]%nth_error_snoc Hfy; [eauto|tauto].
Qed.

(* ================================================================== *)
(** ** place *)

Lemma place_Some b w h x y b' :
  MaxRectsBin.place b w h = (Some (x, y), b') ->
  exists best i,
    first_best (MaxRectsBin.free_rects b) w h best i /\
    x = rx best /\ y = ry best /\
    b' = MaxRectsBin.mk (MaxRectsBin.width b) (MaxRectsBin.height b)
           (MaxRectsBin._prune
              (MaxRectsBin.split_free (MaxRectsBin.free_rects b) (x, y, w, h))).
Proof.
  unfold MaxRectsBin.place.
  destruct (MaxRectsBin.best_fit (MaxRectsBin.free_rects b) w h)
    as [[best score]|] eqn:B; [|discriminate].
  intros [= <- <- <-].
  apply best_fit_Some in B as [_ [i Hi]]. eauto 7.
Qed.

Lemma place_None b w h b' :
  MaxRectsBin.place b w h = (None, b') ->
  b' = b /\ forall fr, In fr (MaxRectsBin.free_rects b) -> ~ fits w h fr.
Proof.
  unfold MaxRectsBin.place.
  destruct (MaxRectsBin.best_fit (MaxRectsBin.free_rects b) w h)
    as [[best score]|] eqn:B; [discriminate|].
  intros [= <-]. split; [reflexivity|]. now apply best_fit_None.
Qed.

Lemma place_fits_Some b w h fr :
  In fr (MaxRectsBin.free_rects b) -> fits w h fr ->
  exists x y b', MaxRectsBin.place b w h = (Some (x, y), b').
Proof.
  intros Hin Hf.
  destruct (MaxRectsBin.place b w h) as [[[x y]|] b'] eqn:E; [eauto|].
  apply place_None in E as [_ E]. exfalso. eapply E; eauto.
Qed.

Lemma place_size b w h :
  MaxRectsBin.width (snd (MaxRectsBin.place b w h)) = MaxRectsBin.width b /\
  MaxRectsBin.height (snd (MaxRectsBin.place b w h)) = MaxRectsBin.height b.
Proof.
  unfold MaxRectsBin.place.
  destruct (MaxRectsBin.best_fit _ w h) as [[best score]|]; cbn; auto.
Qed.

(** The free list after a successful [place], entry by entry. *)
Lemma in_placed_free b w h x y b' r :
  MaxRectsBin.place b w h = (Some (x, y), b') ->
  In r (MaxRectsBin.free_rects b') ->
  exists fr, In fr (MaxRectsBin.free_rects b) /\
             In r (MaxRectsBin.pieces (x, y, w, h) fr).
Proof.
  intros (best & i & _ & _ & _ & ->)%place_Some Hr. cbn in Hr.
  apply prune_incl in Hr. now apply in_split_free.
Qed.

Lemma free_ok_init W H : 0 < W -> 0 < H -> free_ok (MaxRectsBin.__init__ W H).
Proof.
  intros. unfold free_ok. cbn. constructor; [|constructor].
  unfold positive_size, within. cbn. lia.
Qed.

Lemma free_ok_place b w h :
  free_ok b -> free_ok (snd (MaxRectsBin.place b w h)).
Proof.
  intros Hok.
  destruct (MaxRectsBin.place b w h) as [[[x y]|] b'] eqn:E; cbn.
  - unfold free_ok in *. rewrite Forall_forall in *. intros r Hr.
    destruct (in_placed_free _ _ _ _ _ _ _ E Hr) as (fr & Hfr & Hp).
    pose proof (place_size b w h) as [Hw Hh]. rewrite E in Hw, Hh. cbn in Hw, Hh.
    rewrite Hw, Hh. destruct (Hok fr Hfr) as [Hpos Hwin]. split.
    + eapply pieces_positive; eauto.
    + apply pieces_Inside in Hp. unfold Inside, within in *. lia.
  - apply place_None in E as [-> _]. assumption.
Qed.

Lemma Antichain_place b w h :
  Antichain (MaxRectsBin.free_rects b) ->
  Antichain (MaxRectsBin.free_rects (snd (MaxRectsBin.place b w h))).
Proof.
  intros HA.
  destruct (MaxRectsBin.place b w h) as [[[x y]|] b'] eqn:E; cbn.
  - apply place_Some in E as (best & i & _ & _ & _ & ->). cbn.
    apply prune_Antichain.
  - apply place_None in E as [-> _]. assumption.
Qed.

Lemma reachable_inv b :
  reachable b -> free_ok b /\ Antichain (MaxRectsBin.free_rects b).
Proof.
  induction 1 as [W H HW HH | b w h _ [IH1 IH2]].
  - split; [now apply free_ok_init | apply Antichain_init].
  - split; [now apply free_ok_place | now apply Antichain_place].
Qed.

(** The position returned for a request lies on a free rectangle that the
    request fits. *)
Lemma place_on_free b w h x y b' :
  MaxRectsBin.place b w h = (Some (x, y), b') ->
  exists fr, In fr (MaxRectsBin.free_rects b) /\
             Inside (x, y, w, h) fr /\ x = rx fr /\ y = ry fr.
Proof.
  intros (best & i & (Hi & Hf & _) & -> & -> & _)%place_Some.
  exists best. split; [eapply nth_error_In; eauto|].
  split; [|auto]. destruct best as [[[fx fy] fw] fh].
  unfold Inside, fits in *. cbn [rx ry rw rh] in *. lia.
Qed.

(* ================================================================== *)
(** ** One attempt *)

Lemma pairwise_disjoint_snoc l x :
  pairwise_disjoint l -> (forall a, In a l -> Disjoint a x) ->
  pairwise_disjoint (l ++ [x]).
Proof.
  intros Hl Hx i j a b Hij Hi Hj.
  apply nth_error_snoc in Hi as [[_ Hi]|[-> ->]];
  apply nth_error_snoc in Hj as [[_ Hj]|[-> ->]].
  - eapply Hl; eauto.
  - eapply Hx, nth_error_In; eauto.
  - apply Disjoint_sym. eapply Hx, nth_error_In; eauto.
  - congruence.
Qed.

Section Attempt.

Context {Image : Type}.
Implicit Types (items : list (Item Image)) (placed : list (Placement Image)).

Lemma attempt_ok_init W H : attempt_ok (MaxRectsBin.__init__ W H) (@nil (Placement Image)).
Proof.
  split; [|split].
  - intros fr p _ [].
  - intros i j a b _ Hi. cbn in Hi. now rewrite nth_error_nil in Hi.
  - intros p [].
Qed.

(** One successful iteration keeps the state of the attempt sound. *)
Lemma attempt_ok_step b placed name (im : Image) w h x y b' :
  free_ok b -> attempt_ok b placed ->
  MaxRectsBin.place b w h = (Some (x, y), b') ->
  attempt_ok b' (placed ++ [(name, im, x, y, w, h)]).
Proof.
  intros Hok (Hfree & Hpair & Hin) E.
  destruct (place_on_free _ _ _ _ _ _ E) as (best & Hbest & Hib & _).
  pose proof (place_size b w h) as [Hw Hh]. rewrite E in Hw, Hh. cbn in Hw, Hh.
  split; [|split].
  - intros fr p Hfr [Hp|[<-|[]]]%in_app_or.
    + destruct (in_placed_free _ _ _ _ _ _ _ E Hfr) as (fr0 & Hfr0 & Hpc).
      eapply Inside_Disjoint; [eapply pieces_Inside; eauto|]. auto.
    + destruct (in_placed_free _ _ _ _ _ _ _ E Hfr) as (fr0 & Hfr0 & Hpc).
      apply pieces_Disjoint in Hpc. exact Hpc.
  - rewrite map_app. cbn [map]. apply pairwise_disjoint_snoc; [assumption|].
    intros a (p & <- & Hp)%in_map_iff.
    apply Disjoint_sym. eapply Inside_Disjoint; [exact Hib|]. auto.
  - rewrite Hw, Hh. intros p [Hp|[<-|[]]]%in_app_or; [auto|].
    unfold free_ok in Hok. rewrite Forall_forall in Hok.
    destruct (Hok best Hbest) as [_ Hwin].
    unfold p_rect. cbn [p_x p_y p_w p_h].
    unfold Inside, within in *. cbn [rx ry rw rh] in *. lia.
Qed.

Lemma attempt_sound items : forall b placed result,
  free_ok b -> attempt_ok b placed ->
  attempt b items placed = Some result ->
  pairwise_disjoint (map p_rect result) /\
  (forall p, In p result ->
             within (MaxRectsBin.width b) (MaxRectsBin.height b) (p_rect p)) /\
  length result = (length placed + length items)%nat.
Proof.
  induction items as [|[[[name im] w] h] rest IH]; intros b placed result Hok Hat; cbn.
  - intros [= <-]. destruct Hat as (_ & Hp & Hin).
    split; [assumption|]. split; [assumption | lia].
  - destruct (MaxRectsBin.place b w h) as [[[x y]|] b'] eqn:E; [|discriminate].
    intros Hres.
    pose proof (place_size b w h) as [Hw Hh]. rewrite E in Hw, Hh. cbn in Hw, Hh.
    pose proof (free_ok_place b w h Hok) as Hok'. rewrite E in Hok'. cbn in Hok'.
    pose proof (attempt_ok_step _ _ name im _ _ _ _ _ Hok Hat E) as Hat'.
    destruct (IH _ _ _ Hok' Hat' Hres) as (H1 & H2 & H3).
    rewrite Hw, Hh in H2. rewrite length_app in H3. cbn in H3.
    split; [assumption|]. split; [assumption | lia].
Qed.

End Attempt.

(* ================================================================== *)
(** ** sum, max and sorted *)

Lemma fold_max_spec xs : forall x,
  In (fold_left Z.max xs x) (x :: xs) /\
  forall y, In y (x :: xs) -> y <= fold_left Z.max xs x.
Proof.
  induction xs as [|z xs IH]; intros x; cbn [fold_left].
  - split; [now left|]. intros y [<-|[]]. lia.
  - destruct (IH (Z.max x z)) as [Hin Hub]. split.
    + destruct Hin as [E|Hin]; [|right; now right].
      rewrite <- E. destruct (Z.max_spec x z) as [[_ ->]|[_ ->]];
        [right; now left | now left].
    + intros y [<-|[<-|Hy]].
      * specialize (Hub (Z.max x z) (or_introl eq_refl)). lia.
      * specialize (Hub (Z.max x z) (or_introl eq_refl)). lia.
      * apply Hub. now right.
Qed.

Lemma py_max_Ok l m :
  py_max l = Ok m -> In m l /\ forall y, In y l -> y <= m.
Proof.
  destruct l as [|x xs]; [discriminate|]. intros [= <-]. apply fold_max_spec.
Qed.

Lemma py_max_nonempty l : l <> [] -> exists m, py_max l = Ok m.
Proof. destruct l; [congruence|]. cbn. eauto. Qed.

Lemma py_max_Raised l e : py_max l = Raised e -> l = [] /\ e = "ValueError"%string.
Proof. destruct l; [|discriminate]. now intros [= <-]. Qed.

Lemma py_max_not_OutOfFuel l : py_max l <> OutOfFuel.
Proof. destruct l; discriminate. Qed.

Lemma fold_add_shift l : forall a, fold_left Z.add l a = a + fold_left Z.add l 0.
Proof.
  induction l as [|x l IH]; intros a; cbn [fold_left]; [lia|].
  rewrite (IH (a + x)), (IH (0 + x)). lia.
Qed.

Lemma py_sum_cons x l : py_sum (x :: l) = x + py_sum l.
Proof. unfold py_sum. cbn [fold_left]. rewrite fold_add_shift. lia. Qed.

Lemma py_sum_nonneg l : (forall x, In x l -> 0 <= x) -> 0 <= py_sum l.
Proof.
  induction l as [|x l IH]; intros H; [cbn; lia|].
  rewrite py_sum_cons. specialize (H x (or_introl eq_refl)) as Hx.
  assert (0 <= py_sum l) by (apply IH; intros; apply H; now right). lia.
Qed.

Lemma insert_desc_Permutation {A : Type} (key : A -> Z) x l :
  Permutation (insert_desc key x l) (x :: l).
Proof.
  induction l as [|y l IH]; cbn; [reflexivity|].
  destruct (key x <? key y); [|reflexivity].
  rewrite IH. apply perm_swap.
Qed.

Lemma sorted_reverse_Permutation {A : Type} (key : A -> Z) l :
  Permutation (sorted_reverse key l) l.
Proof.
  induction l as [|x l IH]; cbn; [reflexivity|].
  rewrite insert_desc_Permutation. now constructor.
Qed.

Lemma insert_desc_sorted {A : Type} (key : A -> Z) x l :
  StronglySorted (fun a b => key b <= key a) l ->
  StronglySorted (fun a b => key b <= key a) (insert_desc key x l).
Proof.
  induction 1 as [|y l Hs IH Hy]; cbn.
  - constructor; constructor.
  - destruct (key x <? key y) eqn:E; bools.
    + constructor; [assumption|].
      rewrite Forall_forall in *. intros z Hz.
      apply (Permutation_in _ (insert_desc_Permutation key x l)) in Hz.
      destruct Hz as [<-|Hz]; [lia | auto].
    + constructor; [now constructor|].
      constructor; [lia|]. rewrite Forall_forall in *.
      intros z Hz. specialize (Hy z Hz). lia.
Qed.

(** The model of [sorted(..., reverse=True)] is in descending order of
    the key. *)
Lemma sorted_reverse_descending {A : Type} (key : A -> Z) l :
  StronglySorted (fun a b => key b <= key a) (sorted_reverse key l).
Proof.
  induction l as [|x l IH]; cbn; [constructor|]. now apply insert_desc_sorted.
Qed.

(** Entries of equal key keep their input order. *)
Example sorted_reverse_stable :
  sorted_reverse fst [(1, "a"); (3, "b"); (2, "c"); (3, "d")]%string =
  [(3, "b"); (3, "d"); (2, "c"); (1, "a")]%string.
Proof. reflexivity. Qed.

(* ================================================================== *)
(** ** The free strip at the right of the bin *)

Lemma right_margin_init W H : right_margin (MaxRectsBin.__init__ W H) 0.
Proof.
  split; cbn.
  - intros fr [<-|[]]. cbn. lia.
  - intros _. exists (0, 0, W, H). cbn. split; [now left | lia].
Qed.

Lemma right_margin_fits b X w h :
  right_margin b X -> 0 < w ->
  X + w <= MaxRectsBin.width b -> h <= MaxRectsBin.height b ->
  exists fr, In fr (MaxRectsBin.free_rects b) /\ fits w h fr.
Proof.
  intros [_ HR] Hw HX Hh. destruct HR as (R & HRin & H1 & H2 & H3 & H4); [lia|].
  exists R. split; [assumption|]. unfold fits. lia.
Qed.

Lemma right_margin_step b X w h x y b' :
  Antichain (MaxRectsBin.free_rects b) -> right_margin b X -> 0 <= w ->
  MaxRectsBin.place b w h = (Some (x, y), b') ->
  right_margin b' (X + w).
Proof.
  intros HA [Hleft HR] Hw E.
  destruct (place_on_free _ _ _ _ _ _ E) as (best & Hbest & _ & Hx & _).
  pose proof (Hleft best Hbest) as Hbx.
  pose proof (place_size b w h) as [EW EH]. rewrite E in EW, EH. cbn in EW, EH.
  split.
  - intros r Hr.
    destruct (in_placed_free _ _ _ _ _ _ _ E Hr) as (fr & Hfr & Hp).
    pose proof (Hleft fr Hfr) as Hfx. unfold MaxRectsBin.pieces in Hp.
    destruct (MaxRectsBin._overlaps fr (x, y, w, h)).
    + apply in_split in Hp. cbn [rx ry rw rh] in Hp.
      destruct Hp as [[? ->]|[[? ->]|[[? ->]|[? ->]]]]; cbn [rx]; lia.
    + destruct Hp as [<-|[]]. lia.
  - rewrite EW, EH. intros HX.
    destruct HR as (R & HRin & H1 & H2 & H3 & H4); [lia|].
    assert (exists S, In S (MaxRectsBin.split_free (MaxRectsBin.free_rects b)
                              (x, y, w, h)) /\
                      rx S <= X + w /\ ry S <= 0 /\
                      MaxRectsBin.width b <= rx S + rw S /\
                      MaxRectsBin.height b <= ry S + rh S) as (S & HS & HS').
    { destruct (MaxRectsBin._overlaps R (x, y, w, h)) eqn:Ho.
      - exists (x + w, ry R, (rx R + rw R) - (x + w), rh R). split.
        + apply in_split_free. exists R. split; [assumption|].
          unfold MaxRectsBin.pieces. rewrite Ho. apply in_split.
          right; left. cbn [rx ry rw rh]. split; [lia | reflexivity].
        + cbn [rx ry rw rh]. lia.
      - exists R. split.
        + apply in_split_free. exists R. split; [assumption|].
          unfold MaxRectsBin.pieces. rewrite Ho. now left.
        + lia. }
    destruct (prune_cover _ S (split_free_NoDup _ (x, y, w, h) HA) HS)
      as (c & Hc & Hin).
    exists c. split.
    + apply place_Some in E as (? & ? & _ & _ & _ & ->). exact Hc.
    + unfold Inside in Hin. lia.
Qed.

(** The same for a request of any sign: a request that is not wider than
    zero takes nothing from the margin. *)
Lemma right_margin_fits_any b X w h :
  right_margin b X -> X < MaxRectsBin.width b ->
  X + w <= MaxRectsBin.width b -> h <= MaxRectsBin.height b ->
  exists fr, In fr (MaxRectsBin.free_rects b) /\ fits w h fr.
Proof.
  intros [_ HR] HX Hw Hh. destruct (HR HX) as (R & HRin & H1 & H2 & H3 & H4).
  exists R. split; [assumption|]. unfold fits. lia.
Qed.

Lemma right_margin_step_any b X w h x y b' :
  Antichain (MaxRectsBin.free_rects b) -> right_margin b X ->
  MaxRectsBin.place b w h = (Some (x, y), b') ->
  right_margin b' (X + Z.max 0 w).
Proof.
  intros HA [Hleft HR] E.
  destruct (place_on_free _ _ _ _ _ _ E) as (best & Hbest & _ & Hx & _).
  pose proof (Hleft best Hbest) as Hbx.
  pose proof (place_size b w h) as [EW EH]. rewrite E in EW, EH. cbn in EW, EH.
  split.
  - intros r Hr.
    destruct (in_placed_free _ _ _ _ _ _ _ E Hr) as (fr & Hfr & Hp).
    pose proof (Hleft fr Hfr) as Hfx. unfold MaxRectsBin.pieces in Hp.
    destruct (MaxRectsBin._overlaps fr (x, y, w, h)).
    + apply in_split in Hp. cbn [rx ry rw rh] in Hp.
      destruct Hp as [[? ->]|[[? ->]|[[? ->]|[? ->]]]]; cbn [rx]; lia.
    + destruct Hp as [<-|[]]. lia.
  - rewrite EW, EH. intros HX.
    destruct HR as (R & HRin & H1 & H2 & H3 & H4); [lia|].
    assert (exists S, In S (MaxRectsBin.split_free (MaxRectsBin.free_rects b)
                              (x, y, w, h)) /\
                      rx S <= X + Z.max 0 w /\ ry S <= 0 /\
                      MaxRectsBin.width b <= rx S + rw S /\
                      MaxRectsBin.height b <= ry S + rh S) as (S & HS & HS').
    { destruct (MaxRectsBin._overlaps R (x, y, w, h)) eqn:Ho.
      - exists (x + w, ry R, (rx R + rw R) - (x + w), rh R). split.
        + apply in_split_free. exists R. split; [assumption|].
          unfold MaxRectsBin.pieces. rewrite Ho. apply in_split.
          right; left. cbn [rx ry rw rh]. split; [lia | reflexivity].
        + cbn [rx ry rw rh]. lia.
      - exists R. split.
        + apply in_split_free. exists R. split; [assumption|].
          unfold MaxRectsBin.pieces. rewrite Ho. now left.
        + lia. }
    destruct (prune_cover _ S (split_free_NoDup _ (x, y, w, h) HA) HS)
      as (c & Hc & Hin).
    exists c. split.
    + apply place_Some in E as (? & ? & _ & _ & _ & ->). exact Hc.
    + unfold Inside in Hin. lia.
Qed.

Section Loop.

Context {Image : Type}.
Implicit Types (items sorted_imgs imgs : list (Item Image)).

(** An attempt succeeds as soon as the bin is as wide as all the entries
    side by side and as high as the highest of them. *)
Lemma attempt_total items : forall b (placed : list (Placement Image)) X,
  Antichain (MaxRectsBin.free_rects b) -> right_margin b X ->
  (forall t, In t items -> 0 < item_w t /\ item_h t <= MaxRectsBin.height b) ->
  X + py_sum (map item_w items) <= MaxRectsBin.width b ->
  exists result, attempt b items placed = Some result.
Proof.
  induction items as [|[[[name im] w] h] rest IH];
    intros b placed X HA HM Hit HX; cbn [attempt].
  - eauto.
  - cbn [map] in HX. rewrite py_sum_cons in HX. cbn [item_w] in HX.
    destruct (Hit _ (or_introl eq_refl)) as [Hw Hh]. cbn in Hw, Hh.
    assert (0 <= py_sum (map item_w rest)) as Hrest.
    { apply py_sum_nonneg. intros z (t & <- & Ht)%in_map_iff.
      destruct (Hit t (or_intror Ht)). lia. }
    destruct (right_margin_fits b X w h HM Hw) as (fr & Hfr & Hfit); [lia..|].
    destruct (place_fits_Some b w h fr Hfr Hfit) as (x & y & b' & E).
    rewrite E.
    pose proof (place_size b w h) as [EW EH]. rewrite E in EW, EH. cbn in EW, EH.
    apply (IH b' _ (X + w)).
    + pose proof (Antichain_place b w h HA) as HA'. now rewrite E in HA'.
    + eapply right_margin_step; eauto. lia.
    + rewrite EH. intros t Ht. apply Hit. now right.
    + rewrite EW. lia.
Qed.

Lemma grow_spec W H :
  0 < W -> 0 < H ->
  forall W' H', grow W H = (W', H') ->
  0 < W' /\ 0 < H' /\
  ((W <= H /\ W' = W * 2 /\ H' = H /\ W < W') \/
   (H < W /\ W' = W /\ H' = H * 2 /\ H < H')).
Proof.
  intros HW HH W' H'. unfold grow.
  destruct (W <=? H) eqn:E; intros [= <- <-]; bools; lia.
Qed.

Lemma pack_loop_unfold fuel W H sorted_imgs :
  pack_loop (S fuel) W H sorted_imgs =
  match attempt (MaxRectsBin.__init__ W H) sorted_imgs [] with
  | Some placed => Ok placed
  | None => pack_loop fuel (fst (grow W H)) (snd (grow W H)) sorted_imgs
  end.
Proof. cbn [pack_loop]. now destruct (grow W H). Qed.

Lemma pack_loop_step fuel W H sorted_imgs :
  attempt (MaxRectsBin.__init__ W H) sorted_imgs [] = None ->
  pack_loop (S fuel) W H sorted_imgs =
  pack_loop fuel (fst (grow W H)) (snd (grow W H)) sorted_imgs.
Proof.
  intros E. cbn [pack_loop]. rewrite E. now destruct (grow W H).
Qed.

Lemma pack_loop_Ok fuel : forall W H sorted_imgs placed,
  0 < W -> 0 < H ->
  pack_loop fuel W H sorted_imgs = Ok placed ->
  exists W' H', 0 < W' /\ 0 < H' /\ W <= W' /\ H <= H' /\
    attempt (MaxRectsBin.__init__ W' H') sorted_imgs [] = Some placed.
Proof.
  induction fuel as [|fuel IH]; intros W H sorted_imgs placed HW HH; cbn [pack_loop].
  - discriminate.
  - destruct (attempt (MaxRectsBin.__init__ W H) sorted_imgs []) as [r|] eqn:E.
    + intros [= <-]. exists W, H. repeat split; auto; lia.
    + destruct (grow W H) as [W' H'] eqn:G.
      destruct (grow_spec W H HW HH W' H' G) as (HW' & HH' & Hg).
      intros (W2 & H2 & ? & ? & ? & ? & ?)%IH; [|assumption..].
      exists W2, H2. repeat split; auto; lia.
Qed.

Lemma pack_loop_not_Raised fuel : forall W H sorted_imgs e,
  pack_loop fuel W H sorted_imgs <> Raised e.
Proof.
  induction fuel as [|fuel IH]; intros W H sorted_imgs e; cbn [pack_loop].
  - discriminate.
  - destruct (attempt _ _ _); [discriminate|].
    destruct (grow W H). apply IH.
Qed.

(** More fuel does not change what the loop returns. *)
Lemma pack_loop_more_fuel fuel : forall W H sorted_imgs placed (extra : nat),
  pack_loop fuel W H sorted_imgs = Ok placed ->
  pack_loop (fuel + extra) W H sorted_imgs = Ok placed.
Proof.
  induction fuel as [|fuel IH]; intros W H sorted_imgs placed extra;
    cbn [pack_loop Nat.add].
  - discriminate.
  - destruct (attempt _ _ _); [auto|]. destruct (grow W H). apply IH.
Qed.

Lemma pack_loop_deterministic fuel1 fuel2 W H sorted_imgs placed1 placed2 :
  pack_loop fuel1 W H sorted_imgs = Ok placed1 ->
  pack_loop fuel2 W H sorted_imgs = Ok placed2 ->
  placed1 = placed2.
Proof.
  intros E1 E2.
  apply pack_loop_more_fuel with (extra := fuel2) in E1.
  apply pack_loop_more_fuel with (extra := fuel1) in E2.
  rewrite Nat.add_comm in E2. congruence.
Qed.

Lemma loop_returns_now sorted_imgs W H placed :
  attempt (MaxRectsBin.__init__ W H) sorted_imgs [] = Some placed ->
  loop_returns sorted_imgs W H.
Proof. intros E. exists 1%nat, placed. cbn. now rewrite E. Qed.

Lemma loop_returns_later sorted_imgs W H :
  loop_returns sorted_imgs (fst (grow W H)) (snd (grow W H)) ->
  loop_returns sorted_imgs W H.
Proof.
  intros (fuel & placed & E).
  destruct (attempt (MaxRectsBin.__init__ W H) sorted_imgs []) as [r|] eqn:A.
  - eapply loop_returns_now; eauto.
  - exists (S fuel), placed. now rewrite pack_loop_step.
Qed.

(** The loop returns: the width is doubled until all entries fit side by
    side, with the height doubled in between whenever it has fallen
    below the width. *)
Lemma loop_returns_wide sorted_imgs W H :
  (forall t, In t sorted_imgs -> 0 < item_w t /\ item_h t <= H) ->
  0 < W -> py_sum (map item_w sorted_imgs) <= W ->
  loop_returns sorted_imgs W H.
Proof.
  intros Hit HW HT.
  destruct (attempt_total sorted_imgs (MaxRectsBin.__init__ W H) [] 0)
    as [r Hr]; cbn; auto using Antichain_init, right_margin_init.
  - apply (Antichain_init W H).
  - eapply loop_returns_now; eauto.
Qed.

Lemma loop_returns_height sorted_imgs W :
  0 < W ->
  (forall H', 0 < H' ->
     (forall t, In t sorted_imgs -> 0 < item_w t /\ item_h t <= H') ->
     loop_returns sorted_imgs (W * 2) H') ->
  forall (k : nat) H,
    0 < H -> (forall t, In t sorted_imgs -> 0 < item_w t /\ item_h t <= H) ->
    W - H <= Z.of_nat k ->
    loop_returns sorted_imgs W H.
Proof.
  intros HW Hnext. induction k as [|k IH]; intros H HH Hit Hk;
    apply loop_returns_later; unfold grow;
    destruct (W <=? H) eqn:E; bools; cbn [fst snd]; try lia.
  - now apply Hnext.
  - now apply Hnext.
  - apply IH; [lia| |lia]. intros t Ht. destruct (Hit t Ht). lia.
Qed.

Lemma loop_returns_width sorted_imgs (n : nat) : forall W H,
  0 < W -> 0 < H ->
  (forall t, In t sorted_imgs -> 0 < item_w t /\ item_h t <= H) ->
  py_sum (map item_w sorted_imgs) - W <= Z.of_nat n ->
  loop_returns sorted_imgs W H.
Proof.
  induction n as [|n IH]; intros W H HW HH Hit Hn.
  - apply loop_returns_wide; auto. lia.
  - apply (loop_returns_height sorted_imgs W HW) with (k := Z.to_nat (W - H));
      auto; [|lia].
    intros H' HH' Hit'. apply IH; auto; lia.
Qed.

(** The same without any assumption on the widths: an attempt succeeds
    once the bin is wider than the positive widths taken together and as
    high as the highest entry. *)
Lemma attempt_total_any items : forall b (placed : list (Placement Image)) X,
  Antichain (MaxRectsBin.free_rects b) -> right_margin b X ->
  (forall t, In t items -> item_h t <= MaxRectsBin.height b) ->
  X + py_sum (map (fun t => Z.max 0 (item_w t)) items) < MaxRectsBin.width b ->
  exists result, attempt b items placed = Some result.
Proof.
  induction items as [|[[[name im] w] h] rest IH];
    intros b placed X HA HM Hit HX; cbn [attempt].
  - eauto.
  - cbn [map] in HX. rewrite py_sum_cons in HX. cbn [item_w] in HX.
    pose proof (Hit _ (or_introl eq_refl)) as Hh. cbn in Hh.
    assert (0 <= py_sum (map (fun t => Z.max 0 (item_w t)) rest)) as Hrest.
    { apply py_sum_nonneg. intros z (t & <- & Ht)%in_map_iff. lia. }
    destruct (right_margin_fits_any b X w h HM) as (fr & Hfr & Hfit); [lia..|].
    destruct (place_fits_Some b w h fr Hfr Hfit) as (x & y & b' & E).
    rewrite E.
    pose proof (place_size b w h) as [EW EH]. rewrite E in EW, EH. cbn in EW, EH.
    apply (IH b' _ (X + Z.max 0 w)).
    + pose proof (Antichain_place b w h HA) as HA'. now rewrite E in HA'.
    + eapply right_margin_step_any; eauto.
    + rewrite EH. intros t Ht. apply Hit. now right.
    + rewrite EW. lia.
Qed.

Lemma loop_returns_height_any sorted_imgs W :
  0 < W ->
  (forall H', 0 < H' ->
     (forall t, In t sorted_imgs -> item_h t <= H') ->
     loop_returns sorted_imgs (W * 2) H') ->
  forall (k : nat) H,
    0 < H -> (forall t, In t sorted_imgs -> item_h t <= H) ->
    W - H <= Z.of_nat k ->
    loop_returns sorted_imgs W H.
Proof.
  intros HW Hnext. induction k as [|k IH]; intros H HH Hit Hk;
    apply loop_returns_later; unfold grow;
    destruct (W <=? H) eqn:E; bools; cbn [fst snd]; try lia.
  - now apply Hnext.
  - now apply Hnext.
  - apply IH; [lia| |lia]. intros t Ht. specialize (Hit t Ht). lia.
Qed.

Lemma loop_returns_width_any sorted_imgs (n : nat) : forall W H,
  0 < W -> 0 < H ->
  (forall t, In t sorted_imgs -> item_h t <= H) ->
  py_sum (map (fun t => Z.max 0 (item_w t)) sorted_imgs) + 1 - W <= Z.of_nat n ->
  loop_returns sorted_imgs W H.
Proof.
  induction n as [|n IH]; intros W H HW HH Hit Hn.
  - destruct (attempt_total_any sorted_imgs (MaxRectsBin.__init__ W H) [] 0)
      as [r Hr].
    + apply Antichain_init.
    + apply right_margin_init.
    + exact Hit.
    + cbn. lia.
    + eapply loop_returns_now; eauto.
  - apply (loop_returns_height_any sorted_imgs W HW) with (k := Z.to_nat (W - H));
      auto; [|lia].
    intros H' HH' Hit'. apply IH; auto; lia.
Qed.

(** The loop returns from every positive size that is as high as the
    highest entry, whatever the entries. *)
Lemma loop_returns_any sorted_imgs W H :
  0 < W -> 0 < H ->
  (forall t, In t sorted_imgs -> item_h t <= H) ->
  loop_returns sorted_imgs W H.
Proof.
  intros HW HH Hit.
  apply (loop_returns_width_any sorted_imgs
           (Z.to_nat (py_sum (map (fun t => Z.max 0 (item_w t)) sorted_imgs)
                      + 1 - W))); auto.
  lia.
Qed.

End Loop.

(* ================================================================== *)
(** ** The first bin size *)

Lemma float_of_int_small n : 0 <= n < 2 ^ 53 -> float_of_int n = n.
Proof.
  intros [H0 H1]. unfold float_of_int.
  assert (Z.log2 n - 52 <= 0) as He.
  { destruct (Z.eq_dec n 0) as [->|Hn]; [cbn; lia|].
    assert (Z.log2 n < 53) by (apply Z.log2_lt_pow2; lia). lia. }
  apply Z.leb_le in He. now rewrite He.
Qed.

Lemma float_of_int_nonneg n : 0 <= n -> 0 <= float_of_int n.
Proof.
  intros H0. unfold float_of_int.
  destruct (Z.log2 n - 52 <=? 0) eqn:E; [assumption|].
  apply Z.leb_gt in E.
  set (e := Z.log2 n - 52) in *.
  assert (0 < 2 ^ e) by (apply Z.pow_pos_nonneg; lia).
  assert (0 <= n / 2 ^ e) by (apply Z.div_pos; lia).
  apply Z.mul_nonneg_nonneg; [|lia].
  destruct (_ <? _); [assumption|].
  destruct (_ <? _); [lia|]. destruct (Z.even _); lia.
Qed.

Lemma float_sqrt_int_nonneg x : 0 <= x -> 0 <= float_sqrt_int x.
Proof.
  intros H0. unfold float_sqrt_int.
  set (k := Z.log2 x / 2).
  assert (0 <= k) by (apply Z.div_pos; [apply Z.log2_nonneg | lia]).
  destruct (k <=? 52) eqn:E.
  - apply Z.leb_le in E.
    assert (0 < 2 ^ (52 - k)) by (apply Z.pow_pos_nonneg; lia).
    apply Z.div_pos; [|assumption].
    pose proof (Z.sqrt_nonneg (x * 2 ^ (52 - k) * 2 ^ (52 - k))).
    destruct (_ <=? _); lia.
  - apply Z.leb_gt in E.
    assert (0 < 2 ^ (k - 52)) by (apply Z.pow_pos_nonneg; lia).
    assert (0 <= Z.sqrt x / 2 ^ (k - 52))
      by (apply Z.div_pos; [apply Z.sqrt_nonneg | assumption]).
    apply Z.mul_nonneg_nonneg; [|lia].
    destruct (_ <? _); [assumption|].
    destruct (_ <? _); [lia|]. destruct (Z.even _); lia.
Qed.

Lemma float_sqrt_int_exact n : 0 <= n < 2 ^ 52 -> float_sqrt_int n = Z.sqrt n.
Proof.
  intros [H0 H1]. unfold float_sqrt_int.
  set (k := Z.log2 n / 2).
  assert (0 <= k <= 25) as Hk.
  { subst k. split; [apply Z.div_pos; [apply Z.log2_nonneg | lia]|].
    assert (Z.log2 n < 52).
    { destruct (Z.eq_dec n 0) as [->|Hn]; [cbn; lia|].
      apply Z.log2_lt_pow2; lia. }
    assert (Z.log2 n / 2 < 26) by (apply Z.div_lt_upper_bound; lia). lia. }
  assert ((k <=? 52) = true) as -> by (apply Z.leb_le; lia).
  set (D := 2 ^ (52 - k)).
  assert (2 ^ 27 <= D) as HD by (apply Z.pow_le_mono_r; lia).
  set (s := Z.sqrt n).
  pose proof (Z.sqrt_spec n H0) as Hs. cbn zeta in Hs. fold s in Hs.
  unfold Z.succ in Hs.
  pose proof (Z.sqrt_nonneg n) as Hs0. fold s in Hs0.
  change (2 ^ 27) with 134217728 in HD.
  change (2 ^ 52) with (67108864 * 67108864) in H1.
  assert (s < 67108864) as Hs26.
  { destruct (Z_lt_le_dec s 67108864); [assumption|].
    assert (67108864 * 67108864 <= s * s) by (apply Z.mul_le_mono_nonneg; lia).
    lia. }
  set (y := n * D * D).
  assert (0 <= y) as Hy by (subst y; nia).
  pose proof (Z.sqrt_spec y Hy) as Hr. cbn zeta in Hr. unfold Z.succ in Hr.
  pose proof (Z.sqrt_nonneg y) as Hr0.
  set (r := Z.sqrt y) in *.
  assert (D * s <= r) as Hlow.
  { destruct (Z_le_gt_dec (D * s) r); [assumption|].
    assert ((r + 1) * (r + 1) <= (D * s) * (D * s)) by nia.
    assert ((D * s) * (D * s) <= y) by (subst y; nia). lia. }
  assert (r < D * (s + 1)) as Hup.
  { destruct (Z_lt_le_dec r (D * (s + 1))); [assumption|].
    assert ((D * (s + 1)) * (D * (s + 1)) <= r * r) by nia.
    assert (y < (D * (s + 1)) * (D * (s + 1))) by (subst y; nia). lia. }
  assert (y <= D * (s + 1) * (D * (s + 1)) - D * D) as Hy2 by (subst y; nia).
  symmetry.
  destruct (y <=? r * r + r) eqn:E.
  - apply Z.div_unique with (r := r - D * s); lia.
  - apply Z.leb_gt in E.
    assert (r + 1 < D * (s + 1)) as Hup2.
    { destruct (Z_lt_le_dec (r + 1) (D * (s + 1))); [assumption|].
      assert (r + 1 = D * (s + 1)) as Er by lia.
      assert (r * r + r = (D * (s + 1) - 1) * (D * (s + 1))) by nia.
      nia. }
    apply Z.div_unique with (r := r + 1 - D * s); lia.
Qed.

Section Sizing.

Context {Image : Type}.
Implicit Types (imgs : list (Item Image)).

Lemma float_limit_pos : 0 < float_limit.
Proof. reflexivity. Qed.

Lemma int_sqrt_cases n :
  (float_limit <= Z.abs n /\ int_sqrt n = Raised "OverflowError") \/
  (- float_limit < n < 0 /\ int_sqrt n = Raised "ValueError") \/
  (0 <= n < float_limit /\
   exists r, int_sqrt n = Ok r /\ 0 <= r /\ (n < 2 ^ 52 -> r = Z.sqrt n)).
Proof.
  unfold int_sqrt.
  destruct (float_limit <=? Z.abs n) eqn:E; bools; [left; auto|].
  destruct (n <? 0) eqn:F; bools.
  - right; left. split; [lia | reflexivity].
  - right; right. split; [lia|].
    exists (float_sqrt_int (float_of_int n)). split; [reflexivity|]. split.
    + now apply float_sqrt_int_nonneg, float_of_int_nonneg.
    + intros Hs.
      rewrite float_of_int_small
        by (split; [assumption|]; change (2 ^ 53) with (2 ^ 52 * 2); lia).
      apply float_sqrt_int_exact. lia.
Qed.

Lemma int_sqrt_Ok n r : int_sqrt n = Ok r -> 0 <= n /\ 0 <= r.
Proof.
  destruct (int_sqrt_cases n) as [[_ ->]|[[_ ->]|[Hn (r' & -> & Hr & _)]]];
    try discriminate.
  intros [= <-]. lia.
Qed.

Lemma initial_size_Ok imgs W H :
  initial_size imgs = Ok (W, H) ->
  imgs <> [] /\ 0 < W /\ 0 < H /\
  forall t, In t imgs -> item_w t <= W /\ item_h t <= H.
Proof.
  unfold initial_size.
  destruct (py_max (map item_w imgs)) as [mw| |] eqn:Ew; cbn [bind]; try discriminate.
  destruct (py_max (map item_h imgs)) as [mh| |] eqn:Eh; cbn [bind]; try discriminate.
  destruct (int_sqrt _) as [r| |] eqn:Er; cbn [bind]; try discriminate.
  intros [= <- <-]. apply int_sqrt_Ok in Er as [_ Hr].
  assert (imgs <> []) as Hne by (intros ->; discriminate).
  apply py_max_Ok in Ew as [_ Hw], Eh as [_ Hh].
  split; [|split; [lia|split; [lia|]]].
  - exact Hne.
  - intros t Ht.
    specialize (Hw (item_w t) (in_map _ _ _ Ht)).
    specialize (Hh (item_h t) (in_map _ _ _ Ht)). lia.
Qed.

Lemma initial_size_Raised imgs e :
  initial_size imgs = Raised e ->
  (e = "ValueError"%string /\
   (imgs = [] \/ py_sum (map (fun t => item_w t * item_h t) imgs) < 0)) \/
  (e = "OverflowError"%string /\
   float_limit <= Z.abs (py_sum (map (fun t => item_w t * item_h t) imgs))).
Proof.
  unfold initial_size.
  destruct (py_max (map item_w imgs)) as [mw| |] eqn:Ew; cbn [bind]; try discriminate.
  - destruct (py_max (map item_h imgs)) as [mh| |] eqn:Eh; cbn [bind]; try discriminate.
    + destruct (int_sqrt_cases (py_sum (map (fun t => item_w t * item_h t) imgs)))
        as [[Hn ->]|[[Hn ->]|[Hn (r & -> & _)]]]; cbn [bind]; try discriminate;
        intros [= <-]; [right | left]; split; auto. right. lia.
    + intros [= <-]. apply py_max_Raised in Eh as [Hnil ->].
      left. split; [reflexivity|]. left. now destruct imgs.
  - intros [= <-]. apply py_max_Raised in Ew as [Hnil ->].
    left. split; [reflexivity|]. left. now destruct imgs.
Qed.

Lemma initial_size_area imgs :
  imgs <> [] ->
  let area := py_sum (map (fun t => item_w t * item_h t) imgs) in
  (float_limit <= Z.abs area -> initial_size imgs = Raised "OverflowError") /\
  (- float_limit < area < 0 -> initial_size imgs = Raised "ValueError") /\
  (0 <= area < float_limit -> exists W H, initial_size imgs = Ok (W, H)).
Proof.
  intros Hne area. unfold initial_size. fold area.
  destruct (py_max_nonempty (map item_w imgs)) as [mw ->];
    [now destruct imgs|].
  destruct (py_max_nonempty (map item_h imgs)) as [mh ->];
    [now destruct imgs|].
  cbn [bind]. pose proof float_limit_pos.
  destruct (int_sqrt_cases area) as [[Hn ->]|[[Hn ->]|[Hn (r & -> & _)]]];
    cbn [bind]; (split; [|split]); intros; try lia; eauto.
Qed.

Lemma positive_area imgs :
  (forall t, In t imgs -> 0 < item_w t /\ 0 < item_h t) ->
  0 <= py_sum (map (fun t => item_w t * item_h t) imgs).
Proof.
  intros H. apply py_sum_nonneg. intros z (t & <- & Ht)%in_map_iff.
  destruct (H t Ht). nia.
Qed.

(** What a returning call has gone through: a first size, then a
    successful attempt at some size that is no smaller. *)
Lemma pack_rectangles_Ok fuel imgs placed final_w final_h :
  pack_rectangles fuel imgs = Ok (placed, final_w, final_h) ->
  exists W0 H0 W H,
    initial_size imgs = Ok (W0, H0) /\
    0 < W /\ 0 < H /\ W0 <= W /\ H0 <= H /\
    attempt (MaxRectsBin.__init__ W H) (sorted_reverse sort_key imgs) []
      = Some placed /\
    py_max (map (fun p => p_x p + p_w p) placed) = Ok final_w /\
    py_max (map (fun p => p_y p + p_h p) placed) = Ok final_h.
Proof.
  unfold pack_rectangles.
  destruct (initial_size imgs) as [[W0 H0]| |] eqn:Es; cbn [bind]; try discriminate.
  destruct (pack_loop fuel W0 H0 _) as [pl| |] eqn:El; cbn [bind]; try discriminate.
  destruct (py_max (map (fun p => p_x p + p_w p) pl)) as [fw| |] eqn:Ew;
    cbn [bind]; try discriminate.
  destruct (py_max (map (fun p => p_y p + p_h p) pl)) as [fh| |] eqn:Eh;
    cbn [bind]; try discriminate.
  intros [= <- <- <-].
  destruct (initial_size_Ok _ _ _ Es) as (_ & HW0 & HH0 & _).
  destruct (pack_loop_Ok _ _ _ _ _ HW0 HH0 El) as (W & H & ? & ? & ? & ? & ?).
  exists W0, H0, W, H. auto 10.
Qed.

Lemma pack_rectangles_Raised fuel imgs e :
  pack_rectangles fuel imgs = Raised e ->
  initial_size imgs = Raised e.
Proof.
  unfold pack_rectangles.
  destruct (initial_size imgs) as [[W0 H0]| |] eqn:Es; cbn [bind];
    try discriminate; [|now intros [= ->]].
  destruct (pack_loop fuel W0 H0 _) as [pl| |] eqn:El; cbn [bind]; try discriminate.
  - destruct (initial_size_Ok _ _ _ Es) as (Hne & HW0 & HH0 & _).
    destruct (pack_loop_Ok _ _ _ _ _ HW0 HH0 El) as (W & H & ? & ? & ? & ? & Ha).
    apply attempt_sound in Ha as (_ & _ & Hlen);
      [|now apply free_ok_init|apply attempt_ok_init].
    assert (pl <> []) as Hpl.
    { intros ->. cbn in Hlen.
      pose proof (Permutation_length (sorted_reverse_Permutation sort_key imgs)).
      destruct imgs; [congruence|]. cbn in *. lia. }
    destruct (py_max_nonempty (map (fun p => p_x p + p_w p) pl)) as [fw ->];
      [now destruct pl|].
    destruct (py_max_nonempty (map (fun p => p_y p + p_h p) pl)) as [fh ->];
      [now destruct pl|].
    discriminate.
  - intros E. exfalso. eapply pack_loop_not_Raised; eauto.
Qed.

(** A call on well-formed input, of a total area that a float can hold,
    returns, given fuel enough. *)
Lemma pack_rectangles_returns imgs :
  imgs <> [] ->
  (forall t, In t imgs -> 0 < item_w t /\ 0 < item_h t) ->
  py_sum (map (fun t => item_w t * item_h t) imgs) < float_limit ->
  exists fuel placed final_w final_h,
    pack_rectangles fuel imgs = Ok (placed, final_w, final_h).
Proof.
  intros Hne Hpos Harea.
  destruct (initial_size_area imgs Hne) as (_ & _ & Hsize).
  destruct Hsize as (W0 & H0 & Es);
    [split; [now apply positive_area | assumption]|].
  destruct (initial_size_Ok _ _ _ Es) as (_ & HW0 & HH0 & Hle).
  pose proof (sorted_reverse_Permutation sort_key imgs) as HP.
  destruct (loop_returns_width (sorted_reverse sort_key imgs)
              (Z.to_nat (py_sum (map item_w (sorted_reverse sort_key imgs)) - W0))
              W0 H0 HW0 HH0) as (fuel & pl & El).
  - intros t Ht. apply (Permutation_in _ HP) in Ht.
    destruct (Hpos t Ht), (Hle t Ht). lia.
  - lia.
  - pose proof El as Ha.
    apply pack_loop_Ok in Ha as (W & H & ? & ? & ? & ? & Ha); auto.
    apply attempt_sound in Ha as (_ & _ & Hlen);
      [|now apply free_ok_init|apply attempt_ok_init].
    assert (pl <> []) as Hpl.
    { intros ->. cbn in Hlen. apply Permutation_length in HP.
      destruct imgs; [congruence|]. cbn in *. lia. }
    destruct (py_max_nonempty (map (fun p => p_x p + p_w p) pl)) as [fw Ew];
      [now destruct pl|].
    destruct (py_max_nonempty (map (fun p => p_y p + p_h p) pl)) as [fh Eh];
      [now destruct pl|].
    exists fuel, pl, fw, fh. unfold pack_rectangles.
    rewrite Es. cbn [bind]. rewrite El. cbn [bind]. rewrite Ew. cbn [bind].
    rewrite Eh. reflexivity.
Qed.

(** Once the first size is computed the call returns, given fuel enough,
    whatever the signs of the widths and heights. *)
Lemma pack_rectangles_returns_any imgs W0 H0 :
  initial_size imgs = Ok (W0, H0) ->
  exists fuel placed final_w final_h,
    pack_rectangles fuel imgs = Ok (placed, final_w, final_h).
Proof.
  intros Es.
  destruct (initial_size_Ok _ _ _ Es) as (Hne & HW0 & HH0 & Hle).
  pose proof (sorted_reverse_Permutation sort_key imgs) as HP.
  destruct (loop_returns_any (sorted_reverse sort_key imgs) W0 H0 HW0 HH0)
    as (fuel & pl & El).
  - intros t Ht. apply (Permutation_in _ HP) in Ht. now apply Hle.
  - pose proof El as Ha.
    apply pack_loop_Ok in Ha as (W & H & ? & ? & ? & ? & Ha); auto.
    apply attempt_sound in Ha as (_ & _ & Hlen);
      [|now apply free_ok_init|apply attempt_ok_init].
    assert (pl <> []) as Hpl.
    { intros ->. cbn in Hlen. apply Permutation_length in HP.
      destruct imgs; [congruence|]. cbn in *. lia. }
    destruct (py_max_nonempty (map (fun p => p_x p + p_w p) pl)) as [fw Ew];
      [now destruct pl|].
    destruct (py_max_nonempty (map (fun p => p_y p + p_h p) pl)) as [fh Eh];
      [now destruct pl|].
    exists fuel, pl, fw, fh. unfold pack_rectangles.
    rewrite Es. cbn [bind]. rewrite El. cbn [bind]. rewrite Ew. cbn [bind].
    rewrite Eh. reflexivity.
Qed.

Lemma attempt_items (items : list (Item Image)) : forall b placed result,
  attempt b items placed = Some result ->
  map p_item result = map p_item placed ++ items.
Proof.
  induction items as [|[[[name im] w] h] rest IH]; intros b placed result; cbn.
  - intros [= <-]. now rewrite app_nil_r.
  - destruct (MaxRectsBin.place b w h) as [[[x y]|] b']; [|discriminate].
    intros Hres%IH. rewrite Hres, map_app, <- app_assoc. reflexivity.
Qed.

Lemma returned_items fuel imgs placed final_w final_h :
  pack_rectangles fuel imgs = Ok (placed, final_w, final_h) ->
  map p_item placed = sorted_reverse sort_key imgs.
Proof.
  intros (W0 & H0 & W & H & _ & _ & _ & _ & _ & Ha & _)%pack_rectangles_Ok.
  apply attempt_items in Ha. exact Ha.
Qed.

End Sizing.

(* ================================================================== *)
(** ** Properties of MaxRectsBin *)

(** C3.  [place] returns [None] exactly when the request fits no free
    rectangle.  Otherwise the position it returns is the corner of the
    first entry of the free list, in iteration order, among those the
    request fits that waste the least area: no fitting entry wastes less,
    and every fitting entry before it wastes strictly more.  This holds
    for every bin and every request, positive or not. *)
Theorem place_best_area_fit (b : MaxRectsBin.t) (w h : Z) :
  (fst (MaxRectsBin.place b w h) = None <->
   forall fr, In fr (MaxRectsBin.free_rects b) -> ~ fits w h fr) /\
  (forall x y, fst (MaxRectsBin.place b w h) = Some (x, y) ->
   exists fr i,
     nth_error (MaxRectsBin.free_rects b) i = Some fr /\
     fits w h fr /\ x = rx fr /\ y = ry fr /\
     (forall j fr', nth_error (MaxRectsBin.free_rects b) j = Some fr' ->
                    fits w h fr' -> waste w h fr <= waste w h fr') /\
     (forall j fr', (j < i)%nat ->
                    nth_error (MaxRectsBin.free_rects b) j = Some fr' ->
                    fits w h fr' -> waste w h fr < waste w h fr')).
Proof.
  split.
  - destruct (MaxRectsBin.place b w h) as [[[x y]|] b'] eqn:E; cbn [fst].
    + split; [discriminate|]. intros Hno. exfalso.
      apply place_Some in E as (best & i & (Hi & Hf & _) & _).
      eapply Hno; eauto using nth_error_In.
    + split; [|reflexivity]. intros _. now apply place_None in E.
  - intros x y E.
    destruct (MaxRectsBin.place b w h) as [[[x' y']|] b'] eqn:E'; [|discriminate].
    cbn [fst] in E. injection E as -> ->.
    apply place_Some in E' as (best & i & (Hi & Hf & Hmin & Hfirst) & -> & -> & _).
    exists best, i. auto 7.
Qed.

(** C8.  A call of [place] that returns [None] leaves the bin as it was:
    [free_rects], [width] and [height] are unchanged. *)
Theorem place_None_unchanged (b : MaxRectsBin.t) (w h : Z) :
  fst (MaxRectsBin.place b w h) = None ->
  snd (MaxRectsBin.place b w h) = b.
Proof.
  destruct (MaxRectsBin.place b w h) as [[[x y]|] b'] eqn:E; [discriminate|].
  intros _. now apply place_None in E.
Qed.

Lemma place_None_unchanged_witness :
  fst (MaxRectsBin.place (MaxRectsBin.__init__ 3 3) 5 5) = None /\
  snd (MaxRectsBin.place (MaxRectsBin.__init__ 3 3) 5 5) =
  MaxRectsBin.__init__ 3 3.
Proof.
  split; [reflexivity|].
  apply (place_None_unchanged (MaxRectsBin.__init__ 3 3) 5 5). reflexivity.
Defined.

(** C9.  The invariant of the free list, every entry of positive width
    and height and within [[0, width] x [0, height]], holds after
    [__init__] with positive sizes and is kept by [_prune] and by every
    call of [place], which also leaves [width] and [height] alone; under
    it a returned position [(x, y)] for a request [(w, h)] has
    [0 <= x], [0 <= y], [x + w <= width] and [y + h <= height]. *)
Theorem free_list_invariant :
  (forall W H, 0 < W -> 0 < H -> free_ok (MaxRectsBin.__init__ W H)) /\
  (forall b, free_ok b ->
     free_ok (MaxRectsBin.mk (MaxRectsBin.width b) (MaxRectsBin.height b)
                (MaxRectsBin._prune (MaxRectsBin.free_rects b)))) /\
  (forall b w h, free_ok b ->
     free_ok (snd (MaxRectsBin.place b w h)) /\
     MaxRectsBin.width (snd (MaxRectsBin.place b w h)) = MaxRectsBin.width b /\
     MaxRectsBin.height (snd (MaxRectsBin.place b w h)) = MaxRectsBin.height b) /\
  (forall b w h x y, free_ok b ->
     fst (MaxRectsBin.place b w h) = Some (x, y) ->
     0 <= x /\ 0 <= y /\
     x + w <= MaxRectsBin.width b /\ y + h <= MaxRectsBin.height b).
Proof.
  split; [|split; [|split]].
  - apply free_ok_init.
  - intros b Hok. unfold free_ok in *. cbn. rewrite Forall_forall in *.
    intros r Hr%prune_incl. auto.
  - intros b w h Hok. split; [now apply free_ok_place | apply place_size].
  - intros b w h x y Hok E.
    destruct (MaxRectsBin.place b w h) as [[[x' y']|] b'] eqn:E'; [|discriminate].
    cbn [fst] in E. injection E as -> ->.
    destruct (place_on_free _ _ _ _ _ _ E') as (fr & Hfr & Hin & _).
    unfold free_ok in Hok. rewrite Forall_forall in Hok.
    destruct (Hok fr Hfr) as [_ Hwin].
    unfold Inside, within in *. cbn [rx ry rw rh] in *. lia.
Qed.

Lemma free_list_invariant_witness :
  free_ok (MaxRectsBin.__init__ 10 10) /\
  free_ok (snd (MaxRectsBin.place (MaxRectsBin.__init__ 10 10) 3 4)) /\
  (0 <= 0 /\ 0 <= 0 /\ 0 + 3 <= 10 /\ 0 + 4 <= 10).
Proof.
  destruct free_list_invariant as (Hinit & _ & Hplace & Hpos).
  assert (free_ok (MaxRectsBin.__init__ 10 10)) as H0
    by (apply Hinit; lia).
  split; [exact H0|]. split.
  - apply (Hplace (MaxRectsBin.__init__ 10 10) 3 4 H0).
  - apply (Hpos (MaxRectsBin.__init__ 10 10) 3 4 0 0 H0). reflexivity.
Defined.

(** An entry that does not overlap the placed rectangle survives the
    pruning that ends [place]. *)
Lemma retained_survives_prune l used fr :
  Antichain l -> In fr l -> MaxRectsBin._overlaps fr used = false ->
  In fr (MaxRectsBin._prune (MaxRectsBin.split_free l used)).
Proof.
  intros HA Hfr Ho.
  assert (In fr (MaxRectsBin.split_free l used)) as Hin.
  { apply in_split_free. exists fr. split; [assumption|].
    unfold MaxRectsBin.pieces. rewrite Ho. now left. }
  pose proof (split_free_NoDup l used HA) as Hnd.
  apply In_nth_error in Hin as [i Hi]. apply in_prune. exists i.
  split; [assumption|].
  destruct (MaxRectsBin.contained _ i fr) eqn:C; [|reflexivity]. exfalso.
  apply contained_true in C as (j & c & Hji & Hj & Hfc).
  apply nth_error_In in Hj as Hc.
  apply in_split_free in Hc as (F & HF & Hp).
  pose proof (pieces_Inside _ _ _ Hp) as HcF.
  assert (fr = F) as <-
    by (apply (proj2 HA); auto; eapply Inside_trans; eauto).
  unfold MaxRectsBin.pieces in Hp. rewrite Ho in Hp. destruct Hp as [<-|[]].
  apply Hji. eapply NoDup_same_index; eauto.
Qed.

Lemma flat_map_ext_in {A B : Type} (f g : A -> list B) l :
  (forall a, In a l -> f a = g a) -> flat_map f l = flat_map g l.
Proof.
  induction l as [|a l IH]; intros H; cbn; [reflexivity|].
  rewrite (H a (or_introl eq_refl)), IH; [reflexivity|].
  intros b Hb. apply H. now right.
Qed.

(** What [_prune] keeps of a list without repetitions: the entries that
    lie inside no other entry. *)
Lemma in_prune_NoDup l r :
  NoDup l ->
  (In r (MaxRectsBin._prune l) <->
   In r l /\ forall c, In c l -> Inside r c -> c = r).
Proof.
  intros Hnd. rewrite in_prune. split.
  - intros (i & Hi & Hc). split; [eapply nth_error_In; eauto|].
    intros c [j Hj]%In_nth_error Hrc.
    destruct (Nat.eq_dec j i) as [->|Hne]; [congruence|]. exfalso.
    assert (MaxRectsBin.contained l i r = true) as Ht
      by (apply contained_true; exists j, c; auto).
    congruence.
  - intros [[i Hi]%In_nth_error Hmax]. exists i. split; [assumption|].
    destruct (MaxRectsBin.contained l i r) eqn:C; [|reflexivity]. exfalso.
    apply contained_true in C as (j & c & Hji & Hj & Hrc).
    assert (c = r) as -> by (apply Hmax; eauto using nth_error_In).
    apply Hji. eapply NoDup_same_index; eauto.
Qed.

(** C4, as amended.  On a bin built by [__init__] and changed only by
    [place], a successful call placing [used = (x, y, w, h)] rebuilds the
    free list in two steps.  The second loop builds [new_free] entry by
    entry, in order: an entry that overlaps [used] is replaced by those of
    its left, right, top and bottom slivers that have positive width and
    height, at most four, each inside the entry and apart from [used];
    an entry that does not overlap [used] is kept as it is.  Then
    [_prune] keeps of [new_free] exactly the entries that lie inside no
    other entry.  So in the free list that [place] leaves no overlapped
    entry remains, every entry that did not overlap is still there, and a
    strip is there or lies inside a rectangle that is. *)
Theorem place_splits_then_prunes (b b' : MaxRectsBin.t) (w h x y : Z) :
  reachable b ->
  MaxRectsBin.place b w h = (Some (x, y), b') ->
  let used := (x, y, w, h) in
  let new_free :=
    flat_map (fun fr => if MaxRectsBin._overlaps fr used
                        then filter positive_sizeb (residual_strips fr used)
                        else [fr])
             (MaxRectsBin.free_rects b) in
  MaxRectsBin.free_rects b' = MaxRectsBin._prune new_free /\
  (forall r, In r (MaxRectsBin.free_rects b') <->
             In r new_free /\ forall c, In c new_free -> Inside r c -> c = r) /\
  (forall fr, In fr (MaxRectsBin.free_rects b) ->
     MaxRectsBin._overlaps fr used = true ->
     ~ In fr new_free /\ ~ In fr (MaxRectsBin.free_rects b') /\
     MaxRectsBin._split fr used =
       filter positive_sizeb (residual_strips fr used) /\
     (length (MaxRectsBin._split fr used) <= 4)%nat /\
     forall s, In s (MaxRectsBin._split fr used) ->
       In s new_free /\ Inside s fr /\ Disjoint s used /\
       exists c, In c (MaxRectsBin.free_rects b') /\ Inside s c) /\
  (forall fr, In fr (MaxRectsBin.free_rects b) ->
     MaxRectsBin._overlaps fr used = false ->
     In fr new_free /\ In fr (MaxRectsBin.free_rects b')).
Proof.
  intros [Hok HA]%reachable_inv E used new_free.
  pose proof E as (best & i & _ & _ & _ & Eb')%place_Some.
  unfold free_ok in Hok. rewrite Forall_forall in Hok.
  assert (new_free = MaxRectsBin.split_free (MaxRectsBin.free_rects b) used)
    as Enew.
  { unfold new_free, MaxRectsBin.split_free. apply flat_map_ext_in.
    intros fr Hfr. unfold MaxRectsBin.pieces.
    destruct (MaxRectsBin._overlaps fr used); [|reflexivity].
    symmetry. apply split_filter_strips. now apply Hok. }
  pose proof (split_free_NoDup (MaxRectsBin.free_rects b) used HA) as Hnd.
  assert (MaxRectsBin.free_rects b' = MaxRectsBin._prune new_free) as Efree
    by (rewrite Enew, Eb'; reflexivity).
  assert (forall r, In r new_free -> Disjoint r used) as Hapart.
  { intros r Hr. rewrite Enew in Hr.
    apply in_split_free in Hr as (fr & _ & Hp).
    eapply pieces_Disjoint; eauto. }
  split; [exact Efree|]. split; [|split].
  - intros r. rewrite Efree. apply in_prune_NoDup. now rewrite Enew.
  - intros fr Hfr Ho.
    assert (~ In fr new_free) as Hnot.
    { intros Hin. apply Hapart, overlaps_false in Hin. congruence. }
    split; [exact Hnot|]. split.
    { rewrite Efree. intros Hin%prune_incl. contradiction. }
    split; [apply split_filter_strips; now apply Hok|].
    split; [apply split_length|].
    intros s Hs.
    assert (In s new_free) as Hin.
    { rewrite Enew. apply in_split_free. exists fr. split; [assumption|].
      unfold MaxRectsBin.pieces. now rewrite Ho. }
    split; [exact Hin|]. split; [now apply (split_Inside fr used)|].
    split; [eapply split_Disjoint; eauto|].
    rewrite Efree. apply prune_cover; [now rewrite Enew | exact Hin].
  - intros fr Hfr Ho. split.
    + rewrite Enew. apply in_split_free. exists fr. split; [assumption|].
      unfold MaxRectsBin.pieces. rewrite Ho. now left.
    + rewrite Eb'. cbn [MaxRectsBin.free_rects].
      now apply retained_survives_prune.
Qed.

Lemma place_splits_then_prunes_witness :
  (* the bottom strip left by a first request overlaps the second one
     and is gone *)
  ~ In (0, 3, 10, 7)
       (MaxRectsBin.free_rects
          (snd (MaxRectsBin.place
                  (snd (MaxRectsBin.place (MaxRectsBin.__init__ 10 10) 3 3))
                  7 7))) /\
  (* the left strip cut from it is in the new list *)
  In (0, 3, 3, 7)
     (MaxRectsBin.free_rects
        (snd (MaxRectsBin.place
                (snd (MaxRectsBin.place (MaxRectsBin.__init__ 10 10) 3 3))
                7 7))).
Proof.
  pose (b := snd (MaxRectsBin.place (MaxRectsBin.__init__ 10 10) 3 3)).
  pose (b' := snd (MaxRectsBin.place b 7 7)).
  assert (reachable b) as Hb
    by (apply reach_place, reach_init; lia).
  assert (MaxRectsBin.place b 7 7 = (Some (3, 0), b')) as E by reflexivity.
  destruct (place_splits_then_prunes b b' 7 7 3 0 Hb E) as (_ & _ & Hover & _).
  destruct (Hover (0, 3, 10, 7)) as (_ & Hgone & _ & _ & Hstrips).
  - right. now left.
  - reflexivity.
  - split; [exact Hgone|]. vm_compute. auto.
Defined.

(** C4, as stated, fails on the free list that [place] leaves.  In the
    10 by 10 bin that holds a 3 by 3 rectangle, a 7 by 7 request goes to
    [(3, 0)]; the free rectangle [(3, 0, 7, 10)] overlaps it and its
    bottom strip [(3, 7, 7, 3)] has positive width and height, yet the
    strip is not in the free list afterwards: it lies inside
    [(0, 7, 10, 3)] and [_prune] drops it. *)
Lemma pruned_strip_counterexample :
  snd (MaxRectsBin.place (MaxRectsBin.__init__ 10 10) 3 3) =
    MaxRectsBin.mk 10 10 [(3, 0, 7, 10); (0, 3, 10, 7)] /\
  MaxRectsBin.place (MaxRectsBin.mk 10 10 [(3, 0, 7, 10); (0, 3, 10, 7)]) 7 7 =
    (Some (3, 0), MaxRectsBin.mk 10 10 [(0, 3, 3, 7); (0, 7, 10, 3)]) /\
  MaxRectsBin._overlaps (3, 0, 7, 10) (3, 0, 7, 7) = true /\
  In (3, 7, 7, 3) (MaxRectsBin._split (3, 0, 7, 10) (3, 0, 7, 7)) /\
  positive_size (3, 7, 7, 3) /\
  ~ In (3, 7, 7, 3) [(0, 3, 3, 7); (0, 7, 10, 3)].
Proof.
  split; [reflexivity|]. split; [reflexivity|]. split; [reflexivity|].
  split; [cbn; auto|]. split; [unfold positive_size; cbn; lia|].
  intros [F|[F|[]]]; discriminate F.
Qed.

(** C10, as amended.  On a free list without repeated entries [_prune]
    loses no free area: every rectangle it removes lies, on all four
    bounds, inside another rectangle that it keeps. *)
Theorem prune_loses_no_area (l : list Rect) (a : Rect) :
  NoDup l ->
  In a l -> ~ In a (MaxRectsBin._prune l) ->
  exists c, In c (MaxRectsBin._prune l) /\ c <> a /\ Inside a c.
Proof.
  intros Hnd Ha Hna. destruct (prune_cover l a Hnd Ha) as (c & Hc & Hac).
  exists c. split; [assumption|]. split; [congruence | assumption].
Qed.

Lemma prune_loses_no_area_witness :
  exists c, In c (MaxRectsBin._prune [(0, 0, 4, 4); (1, 1, 2, 2)]) /\
            c <> (1, 1, 2, 2) /\ Inside (1, 1, 2, 2) c.
Proof.
  apply (prune_loses_no_area [(0, 0, 4, 4); (1, 1, 2, 2)] (1, 1, 2, 2)).
  - constructor.
    + cbn. intros [F|[]]. discriminate F.
    + constructor; [intros []|constructor].
  - right. now left.
  - cbn. intros [F|[]]. discriminate F.
Defined.

(** C10, as stated, fails on a list with a repeated entry: both copies
    are removed and nothing that remains contains them. *)
Lemma prune_duplicates_counterexample :
  In (0, 0, 1, 1) [(0, 0, 1, 1); (0, 0, 1, 1)] /\
  MaxRectsBin._prune [(0, 0, 1, 1); (0, 0, 1, 1)] = [] /\
  ~ (forall l a, In a l -> ~ In a (MaxRectsBin._prune l) ->
       exists c, In c (MaxRectsBin._prune l) /\ Inside a c).
Proof.
  split; [now left|]. split; [reflexivity|].
  intros H.
  destruct (H [(0, 0, 1, 1); (0, 0, 1, 1)] (0, 0, 1, 1)) as (c & Hc & _).
  - now left.
  - cbn. tauto.
  - cbn in Hc. exact Hc.
Qed.

(** The lists that [place] hands to [_prune] on a reachable bin never
    repeat an entry, so there the pruning loses no free area. *)
Lemma place_prunes_without_loss b w h x y b' r :
  reachable b ->
  MaxRectsBin.place b w h = (Some (x, y), b') ->
  In r (MaxRectsBin.split_free (MaxRectsBin.free_rects b) (x, y, w, h)) ->
  exists c, In c (MaxRectsBin.free_rects b') /\ Inside r c.
Proof.
  intros [_ HA]%reachable_inv E Hr.
  apply place_Some in E as (? & ? & _ & _ & _ & ->). cbn.
  apply prune_cover; [now apply split_free_NoDup | assumption].
Qed.

(* ================================================================== *)
(** ** Properties of pack_rectangles *)

Section PackProperties.

Context {Image : Type}.
Implicit Types (imgs : list (Item Image)) (placed : list (Placement Image)).

Lemma returned_placements fuel imgs placed final_w final_h :
  pack_rectangles fuel imgs = Ok (placed, final_w, final_h) ->
  pairwise_disjoint (map p_rect placed) /\
  (forall p, In p placed -> 0 <= p_x p /\ 0 <= p_y p) /\
  py_max (map (fun p => p_x p + p_w p) placed) = Ok final_w /\
  py_max (map (fun p => p_y p + p_h p) placed) = Ok final_h.
Proof.
  intros (W0 & H0 & W & H & _ & HW & HH & _ & _ & Ha & Ew & Eh)%pack_rectangles_Ok.
  apply attempt_sound in Ha as (Hpair & Hin & _);
    [|now apply free_ok_init | apply attempt_ok_init].
  split; [assumption|]. split; [|auto].
  intros p Hp. specialize (Hin p Hp).
  unfold within, p_rect in Hin. cbn [rx ry] in Hin. lia.
Qed.

(** C1.  On a non-empty list of entries with positive widths and
    heights, the placements that [pack_rectangles] returns are pairwise
    non-overlapping: two placements at different positions of the returned
    list, and so any two with different names, have rectangles that are
    apart on at least one axis.  And the call does return, given fuel
    enough, as long as the total area is one a float can hold. *)
Theorem pack_rectangles_no_overlap imgs :
  imgs <> [] ->
  (forall t, In t imgs -> 0 < item_w t /\ 0 < item_h t) ->
  (py_sum (map (fun t => item_w t * item_h t) imgs) < float_limit ->
   exists fuel placed final_w final_h,
      pack_rectangles fuel imgs = Ok (placed, final_w, final_h)) /\
  forall fuel placed final_w final_h,
    pack_rectangles fuel imgs = Ok (placed, final_w, final_h) ->
    (forall i j p q, i <> j ->
       nth_error placed i = Some p -> nth_error placed j = Some q ->
       Disjoint (p_rect p) (p_rect q)) /\
    (forall p q, In p placed -> In q placed -> p_name p <> p_name q ->
       Disjoint (p_rect p) (p_rect q)).
Proof.
  intros Hne Hpos. split; [now apply pack_rectangles_returns|].
  intros fuel placed final_w final_h (Hpair & _)%returned_placements.
  assert (forall i j p q, i <> j ->
            nth_error placed i = Some p -> nth_error placed j = Some q ->
            Disjoint (p_rect p) (p_rect q)) as Hidx.
  { intros i j p q Hij Hi Hj. apply (Hpair i j); auto.
    - rewrite nth_error_map, Hi. reflexivity.
    - rewrite nth_error_map, Hj. reflexivity. }
  split; [exact Hidx|].
  intros p q [i Hi]%In_nth_error [j Hj]%In_nth_error Hn.
  apply (Hidx i j); auto. intros ->. congruence.
Qed.

(** C2.  When [pack_rectangles] returns, [final_w] is the largest
    [x + w] and [final_h] the largest [y + h] among the placements: each
    is reached by a placement and exceeded by none.  So every placement
    has [0 <= x], [0 <= y], [x + w <= final_w] and [y + h <= final_h]. *)
Theorem pack_rectangles_tight_box fuel imgs placed final_w final_h :
  pack_rectangles fuel imgs = Ok (placed, final_w, final_h) ->
  (exists p, In p placed /\ final_w = p_x p + p_w p) /\
  (exists p, In p placed /\ final_h = p_y p + p_h p) /\
  forall p, In p placed ->
    0 <= p_x p /\ 0 <= p_y p /\
    p_x p + p_w p <= final_w /\ p_y p + p_h p <= final_h.
Proof.
  intros (_ & Hpos & Ew & Eh)%returned_placements.
  apply py_max_Ok in Ew as [Hwin Hwub], Eh as [Hhin Hhub].
  apply in_map_iff in Hwin as (pw & Epw & Hpw).
  apply in_map_iff in Hhin as (ph & Eph & Hph).
  split; [eauto|]. split; [eauto|].
  intros p Hp. destruct (Hpos p Hp).
  pose proof (Hwub _ (in_map (fun p => p_x p + p_w p) _ _ Hp)).
  pose proof (Hhub _ (in_map (fun p => p_y p + p_h p) _ _ Hp)).
  cbn beta in *. lia.
Qed.

(** C5, as amended.  On the empty collection [pack_rectangles] fails with
    the [ValueError] that [max()] raises on an empty sequence while the
    first bin size is computed: the failure is that of [initial_size],
    before the loop builds any bin, whatever the fuel. *)
Theorem pack_rectangles_empty (fuel : nat) :
  initial_size (@nil (Item Image)) = Raised "ValueError" /\
  pack_rectangles fuel (@nil (Item Image)) = Raised "ValueError".
Proof. split; reflexivity. Qed.

(** C6, as amended.  [pack_rectangles] does not look at the sign of the
    sizes.  A collection holding an entry of non-positive width or height
    is rejected only through its total area, by [math.sqrt] and before
    the loop: with an [OverflowError] when the magnitude of the total is
    too large for a float, with a [ValueError] when the total is negative
    otherwise.  With a total area from zero up to the float limit the
    call never raises: it returns, given fuel enough, and what it returns
    places every entry of the input, the offending ones included, with
    its own width and height.  No other exception class is ever raised. *)
Theorem pack_rectangles_no_validation imgs :
  (exists t, In t imgs /\ (item_w t <= 0 \/ item_h t <= 0)) ->
  let area := py_sum (map (fun t => item_w t * item_h t) imgs) in
  (float_limit <= Z.abs area ->
   forall fuel, pack_rectangles fuel imgs = Raised "OverflowError") /\
  (- float_limit < area < 0 ->
   forall fuel, pack_rectangles fuel imgs = Raised "ValueError") /\
  (0 <= area < float_limit ->
   (forall fuel e, pack_rectangles fuel imgs <> Raised e) /\
   (exists fuel placed final_w final_h,
       pack_rectangles fuel imgs = Ok (placed, final_w, final_h)) /\
   (forall fuel placed final_w final_h,
       pack_rectangles fuel imgs = Ok (placed, final_w, final_h) ->
       Permutation (map p_item placed) imgs)) /\
  (forall fuel e, pack_rectangles fuel imgs = Raised e ->
                  e = "ValueError"%string \/ e = "OverflowError"%string).
Proof.
  intros (t & Ht & _) area.
  assert (imgs <> []) as Hne by (intros ->; destruct Ht).
  destruct (initial_size_area imgs Hne) as (Hbig & Hneg & Hok).
  fold area in Hbig, Hneg, Hok.
  split; [|split; [|split]].
  - intros Ha fuel. unfold pack_rectangles. now rewrite (Hbig Ha).
  - intros Ha fuel. unfold pack_rectangles. now rewrite (Hneg Ha).
  - intros Ha. split; [|split].
    + intros fuel e He%pack_rectangles_Raised.
      apply initial_size_Raised in He as [[_ [->|Hn]]|[_ Hn]];
        [congruence | fold area in Hn; lia | fold area in Hn; lia].
    + destruct (Hok Ha) as (W0 & H0 & Es).
      eapply pack_rectangles_returns_any; eauto.
    + intros fuel placed final_w final_h E%returned_items.
      rewrite E. apply sorted_reverse_Permutation.
  - intros fuel e He%pack_rectangles_Raised.
    apply initial_size_Raised in He as [[-> _]|[-> _]]; auto.
Qed.

Lemma attempt_size_shift W H n :
  attempt_size (fst (grow W H)) (snd (grow W H)) n = attempt_size W H (S n).
Proof.
  unfold attempt_size. rewrite Nat.iter_succ_r. cbn [fst snd].
  now destruct (grow W H).
Qed.

Lemma nth_attempt_shift (sorted_imgs : list (Item Image)) W H n :
  nth_attempt sorted_imgs (fst (grow W H)) (snd (grow W H)) n =
  nth_attempt sorted_imgs W H (S n).
Proof. unfold nth_attempt. now rewrite attempt_size_shift. Qed.

(** The loop returns what the first successful attempt gives. *)
Lemma pack_loop_Ok_iff fuel : forall W H (sorted_imgs : list (Item Image)) placed,
  pack_loop fuel W H sorted_imgs = Ok placed <->
  exists n, (n < fuel)%nat /\
            (forall i, (i < n)%nat -> nth_attempt sorted_imgs W H i = None) /\
            nth_attempt sorted_imgs W H n = Some placed.
Proof.
  induction fuel as [|fuel IH]; intros W H sorted_imgs placed.
  - cbn [pack_loop]. split; [discriminate|]. intros (n & Hn & _). lia.
  - rewrite pack_loop_unfold.
    change (attempt (MaxRectsBin.__init__ W H) sorted_imgs [])
      with (nth_attempt sorted_imgs W H 0).
    destruct (nth_attempt sorted_imgs W H 0) as [r|] eqn:E0.
    + split.
      * intros [= <-]. exists 0%nat. split; [lia|]. split; [intros i; lia|].
        exact E0.
      * intros (n & _ & Hfail & Hn). destruct n as [|n]; [congruence|].
        rewrite (Hfail 0%nat) in E0 by lia. discriminate.
    + rewrite IH. split.
      * intros (n & Hn & Hfail & Hok). exists (S n). split; [lia|]. split.
        -- intros [|i] Hi; [exact E0|].
           rewrite <- nth_attempt_shift. apply Hfail. lia.
        -- now rewrite <- nth_attempt_shift.
      * intros (n & Hn & Hfail & Hok). destruct n as [|n]; [congruence|].
        exists n. split; [lia|]. split.
        -- intros i Hi. rewrite nth_attempt_shift. apply Hfail. lia.
        -- now rewrite nth_attempt_shift.
Qed.

(** The fuel runs out exactly when every attempt it pays for fails. *)
Lemma pack_loop_OutOfFuel_iff fuel : forall W H (sorted_imgs : list (Item Image)),
  pack_loop fuel W H sorted_imgs = OutOfFuel <->
  forall i, (i < fuel)%nat -> nth_attempt sorted_imgs W H i = None.
Proof.
  induction fuel as [|fuel IH]; intros W H sorted_imgs.
  - cbn [pack_loop]. split; [intros _ i; lia | reflexivity].
  - rewrite pack_loop_unfold.
    change (attempt (MaxRectsBin.__init__ W H) sorted_imgs [])
      with (nth_attempt sorted_imgs W H 0).
    destruct (nth_attempt sorted_imgs W H 0) as [r|] eqn:E0.
    + split; [discriminate|]. intros Hfail.
      rewrite (Hfail 0%nat) in E0 by lia. discriminate.
    + rewrite IH. split.
      * intros Hfail [|i] Hi; [exact E0|].
        rewrite <- nth_attempt_shift. apply Hfail. lia.
      * intros Hfail i Hi. rewrite nth_attempt_shift. apply Hfail. lia.
Qed.

Lemma attempt_size_steps W0 H0 :
  0 < W0 -> 0 < H0 ->
  forall n,
    let W := fst (attempt_size W0 H0 n) in
    let H := snd (attempt_size W0 H0 n) in
    let W' := fst (attempt_size W0 H0 (S n)) in
    let H' := snd (attempt_size W0 H0 (S n)) in
    0 < W /\ 0 < H /\ W0 <= W /\ H0 <= H /\
    ((W <= H /\ W' = W * 2 /\ H' = H /\ W < W') \/
     (H < W /\ W' = W /\ H' = H * 2 /\ H < H')).
Proof.
  intros HW0 HH0 n. cbn zeta.
  assert (0 < fst (attempt_size W0 H0 n) /\ 0 < snd (attempt_size W0 H0 n) /\
          W0 <= fst (attempt_size W0 H0 n) /\
          H0 <= snd (attempt_size W0 H0 n)) as (HW & HH & HWm & HHm).
  { induction n as [|n (HW & HH & HWm & HHm)]; [cbn; lia|].
    change (attempt_size W0 H0 (S n))
      with (grow (fst (attempt_size W0 H0 n)) (snd (attempt_size W0 H0 n))).
    destruct (grow _ _) as [W' H'] eqn:G.
    destruct (grow_spec _ _ HW HH W' H' G) as (? & ? & ?). cbn [fst snd]. lia. }
  change (attempt_size W0 H0 (S n))
    with (grow (fst (attempt_size W0 H0 n)) (snd (attempt_size W0 H0 n))).
  destruct (grow _ _) as [W' H'] eqn:G.
  destruct (grow_spec _ _ HW HH W' H' G) as (_ & _ & Hg). cbn [fst snd].
  auto.
Qed.

Lemma attempt_size_mono W0 H0 :
  0 < W0 -> 0 < H0 ->
  forall n m, (n <= m)%nat ->
    fst (attempt_size W0 H0 n) <= fst (attempt_size W0 H0 m) /\
    snd (attempt_size W0 H0 n) <= snd (attempt_size W0 H0 m).
Proof.
  intros HW0 HH0 n m Hnm. induction Hnm as [|m _ IH]; [lia|].
  pose proof (attempt_size_steps W0 H0 HW0 HH0 m) as Hs. cbn zeta in Hs. lia.
Qed.

(** C7.  The attempts of the loop are numbered from zero; attempt [n]
    uses the bin size [attempt_size W0 H0 n], where [(W0, H0)] is the
    first size.  The loop makes these attempts one after the other and
    returns the result of the first that succeeds: every attempt before
    it failed and was followed by exactly one enlargement, and the fuel
    runs out exactly when all the attempts it pays for fail.  Every size
    is positive and no smaller than an earlier one on either axis.  From
    one attempt to the next the width is doubled when
    [width <= height], which makes it strictly larger, and the height
    stays; otherwise the height is doubled, strictly larger, and the
    width stays. *)
Theorem pack_loop_growth imgs (W0 H0 : Z) :
  initial_size imgs = Ok (W0, H0) ->
  (forall n,
      0 < fst (attempt_size W0 H0 n) /\ 0 < snd (attempt_size W0 H0 n) /\
      ((fst (attempt_size W0 H0 n) <= snd (attempt_size W0 H0 n) /\
        fst (attempt_size W0 H0 (S n)) = fst (attempt_size W0 H0 n) * 2 /\
        snd (attempt_size W0 H0 (S n)) = snd (attempt_size W0 H0 n) /\
        fst (attempt_size W0 H0 n) < fst (attempt_size W0 H0 (S n))) \/
       (snd (attempt_size W0 H0 n) < fst (attempt_size W0 H0 n) /\
        fst (attempt_size W0 H0 (S n)) = fst (attempt_size W0 H0 n) /\
        snd (attempt_size W0 H0 (S n)) = snd (attempt_size W0 H0 n) * 2 /\
        snd (attempt_size W0 H0 n) < snd (attempt_size W0 H0 (S n))))) /\
  (forall n m, (n <= m)%nat ->
      fst (attempt_size W0 H0 n) <= fst (attempt_size W0 H0 m) /\
      snd (attempt_size W0 H0 n) <= snd (attempt_size W0 H0 m)) /\
  (forall fuel placed,
      pack_loop fuel W0 H0 (sorted_reverse sort_key imgs) = Ok placed <->
      exists n, (n < fuel)%nat /\
        (forall i, (i < n)%nat ->
           nth_attempt (sorted_reverse sort_key imgs) W0 H0 i = None) /\
        nth_attempt (sorted_reverse sort_key imgs) W0 H0 n = Some placed) /\
  (forall fuel,
      pack_loop fuel W0 H0 (sorted_reverse sort_key imgs) = OutOfFuel <->
      forall i, (i < fuel)%nat ->
        nth_attempt (sorted_reverse sort_key imgs) W0 H0 i = None) /\
  (forall fuel placed final_w final_h,
      pack_rectangles fuel imgs = Ok (placed, final_w, final_h) ->
      exists n, (n < fuel)%nat /\
        (forall i, (i < n)%nat ->
           nth_attempt (sorted_reverse sort_key imgs) W0 H0 i = None) /\
        nth_attempt (sorted_reverse sort_key imgs) W0 H0 n = Some placed).
Proof.
  intros Es.
  destruct (initial_size_Ok _ _ _ Es) as (_ & HW0 & HH0 & _).
  split; [|split; [|split; [|split]]].
  - intros n. pose proof (attempt_size_steps W0 H0 HW0 HH0 n) as Hs.
    cbn zeta in Hs. destruct Hs as (? & ? & _ & _ & ?). auto.
  - now apply attempt_size_mono.
  - intros fuel placed. apply pack_loop_Ok_iff.
  - intros fuel. apply pack_loop_OutOfFuel_iff.
  - intros fuel placed final_w final_h E. apply pack_loop_Ok_iff.
    unfold pack_rectangles in E. rewrite Es in E. cbn [bind] in E.
    destruct (pack_loop fuel W0 H0 _) as [pl| |]; cbn [bind] in E;
      try discriminate.
    destruct (py_max (map (fun p => p_x p + p_w p) pl)) as [fw| |];
      cbn [bind] in E; try discriminate.
    destruct (py_max (map (fun p => p_y p + p_h p) pl)) as [fh| |];
      cbn [bind] in E; try discriminate.
    now injection E as -> _ _.
Qed.

End PackProperties.

(* ================================================================== *)
(** ** The properties on concrete inputs *)

(** Scenario B of the specification: a single entry goes to the origin
    and fixes the final size. *)
Example single_item :
  pack_rectangles 1 [("A"%string, tt, 50, 50)] =
  Ok ([("A"%string, tt, 0, 0, 50, 50)], 50, 50).
Proof. reflexivity. Qed.

(** Scenario A: the first bin, 20 by 20, fails on the third rectangle and
    the second, 40 by 20, holds all three. *)
Example three_items :
  pack_rectangles 1
    [("A"%string, tt, 10, 10); ("B"%string, tt, 20, 5); ("C"%string, tt, 5, 20)]
  = OutOfFuel /\
  pack_rectangles 2
    [("A"%string, tt, 10, 10); ("B"%string, tt, 20, 5); ("C"%string, tt, 5, 20)]
  = Ok ([("B"%string, tt, 0, 0, 20, 5); ("C"%string, tt, 20, 0, 5, 20);
         ("A"%string, tt, 25, 0, 10, 10)], 35, 20).
Proof. split; reflexivity. Qed.

Lemma pack_rectangles_no_overlap_witness :
  (py_sum (map (fun t => item_w t * item_h t)
     [("A"%string, tt, 10, 10); ("B"%string, tt, 20, 5); ("C"%string, tt, 5, 20)])
   < float_limit ->
   exists fuel placed final_w final_h,
      pack_rectangles fuel
        [("A"%string, tt, 10, 10); ("B"%string, tt, 20, 5); ("C"%string, tt, 5, 20)]
      = Ok (placed, final_w, final_h)) /\
  forall fuel placed final_w final_h,
    pack_rectangles fuel
      [("A"%string, tt, 10, 10); ("B"%string, tt, 20, 5); ("C"%string, tt, 5, 20)]
    = Ok (placed, final_w, final_h) ->
    (forall i j p q, i <> j ->
       nth_error placed i = Some p -> nth_error placed j = Some q ->
       Disjoint (p_rect p) (p_rect q)) /\
    (forall p q, In p placed -> In q placed -> p_name p <> p_name q ->
       Disjoint (p_rect p) (p_rect q)).
Proof.
  apply (pack_rectangles_no_overlap
           [("A"%string, tt, 10, 10); ("B"%string, tt, 20, 5); ("C"%string, tt, 5, 20)]).
  - discriminate.
  - intros t [<-|[<-|[<-|[]]]]; cbn; lia.
Defined.

Lemma pack_rectangles_tight_box_witness :
  (exists p, In p [("B"%string, tt, 0, 0, 20, 5); ("C"%string, tt, 20, 0, 5, 20);
                   ("A"%string, tt, 25, 0, 10, 10)] /\
             35 = p_x p + p_w p) /\
  (exists p, In p [("B"%string, tt, 0, 0, 20, 5); ("C"%string, tt, 20, 0, 5, 20);
                   ("A"%string, tt, 25, 0, 10, 10)] /\
             20 = p_y p + p_h p) /\
  forall p, In p [("B"%string, tt, 0, 0, 20, 5); ("C"%string, tt, 20, 0, 5, 20);
                  ("A"%string, tt, 25, 0, 10, 10)] ->
    0 <= p_x p /\ 0 <= p_y p /\ p_x p + p_w p <= 35 /\ p_y p + p_h p <= 20.
Proof.
  apply (pack_rectangles_tight_box 2
           [("A"%string, tt, 10, 10); ("B"%string, tt, 20, 5); ("C"%string, tt, 5, 20)]).
  reflexivity.
Defined.

(** C5, as stated, fails: the empty collection is not met with a
    dedicated error but with the [ValueError] of [max()]. *)
Lemma empty_input_counterexample :
  pack_rectangles 1 (@nil (Item unit)) = Raised "ValueError" /\
  pack_rectangles 1 (@nil (Item unit)) <> Raised "EmptyInputError".
Proof. split; [reflexivity | discriminate]. Qed.

(** C6, as stated, fails: an entry of width zero is packed like any
    other. *)
Lemma zero_width_counterexample :
  pack_rectangles 1 [("A"%string, tt, 0, 10)] =
  Ok ([("A"%string, tt, 0, 0, 0, 10)], 0, 10) /\
  pack_rectangles 1 [("A"%string, tt, 0, 10)] <> Raised "InvalidItemError".
Proof. split; [reflexivity | discriminate]. Qed.

Lemma pack_rectangles_no_validation_witness :
  (exists fuel placed final_w final_h,
      pack_rectangles fuel [("A"%string, tt, 0, 10)] =
      Ok (placed, final_w, final_h)) /\
  pack_rectangles 1 [("A"%string, tt, -2, 3)] = Raised "ValueError".
Proof.
  split.
  - destruct (pack_rectangles_no_validation [("A"%string, tt, 0, 10)])
      as (_ & _ & Hok & _).
    + exists ("A"%string, tt, 0, 10). split; [now left | left; cbn; lia].
    + apply Hok. vm_compute. split; [discriminate | reflexivity].
  - destruct (pack_rectangles_no_validation [("A"%string, tt, -2, 3)])
      as (_ & Hneg & _).
    + exists ("A"%string, tt, -2, 3). split; [now left | left; cbn; lia].
    + apply Hneg. vm_compute. split; reflexivity.
Defined.

Lemma pack_loop_growth_witness :
  (* the first attempt, 20 by 20, fails; the width is doubled *)
  nth_attempt
    (sorted_reverse sort_key
       [("A"%string, tt, 10, 10); ("B"%string, tt, 20, 5); ("C"%string, tt, 5, 20)])
    20 20 0 = None /\
  attempt_size 20 20 1 = (40, 20) /\
  (* and the loop returns what the second attempt gives *)
  pack_loop 2 20 20
    (sorted_reverse sort_key
       [("A"%string, tt, 10, 10); ("B"%string, tt, 20, 5); ("C"%string, tt, 5, 20)])
  = Ok [("B"%string, tt, 0, 0, 20, 5); ("C"%string, tt, 20, 0, 5, 20);
        ("A"%string, tt, 25, 0, 10, 10)].
Proof.
  destruct (pack_loop_growth
              [("A"%string, tt, 10, 10); ("B"%string, tt, 20, 5);
               ("C"%string, tt, 5, 20)] 20 20) as (_ & _ & Hok & _).
  - reflexivity.
  - split; [reflexivity|]. split; [reflexivity|].
    apply Hok. exists 1%nat. split; [lia|]. split.
    + intros i Hi. replace i with 0%nat by lia. reflexivity.
    + reflexivity.
Defined.

(* ================================================================== *)
(** ** Further properties of MaxRectsBin *)

Lemma overlaps_sym a b :
  MaxRectsBin._overlaps a b = MaxRectsBin._overlaps b a.
Proof.
  destruct (MaxRectsBin._overlaps a b) eqn:E1, (MaxRectsBin._overlaps b a) eqn:E2;
    try reflexivity.
  - apply overlaps_true in E1. apply overlaps_false in E2.
    unfold Disjoint in E2. lia.
  - apply overlaps_false in E1. apply overlaps_true in E2.
    unfold Disjoint in E1. lia.
Qed.

(** X1.  For rectangles of positive size [_overlaps] is symmetric and
    holds exactly when the two rectangles, taken half-open, share a
    cell. *)
Theorem overlaps_shares_cell (a b : Rect) :
  positive_size a -> positive_size b ->
  MaxRectsBin._overlaps a b = MaxRectsBin._overlaps b a /\
  (MaxRectsBin._overlaps a b = true <->
   exists px py, covers a px py /\ covers b px py).
Proof.
  intros Ha Hb. split; [apply overlaps_sym|].
  rewrite overlaps_true. unfold covers, positive_size in *. split.
  - intros H. exists (Z.max (rx a) (rx b)), (Z.max (ry a) (ry b)). lia.
  - intros (px & py & H1 & H2). lia.
Qed.

Lemma overlaps_shares_cell_witness :
  MaxRectsBin._overlaps (0, 0, 4, 4) (3, 3, 2, 2) =
  MaxRectsBin._overlaps (3, 3, 2, 2) (0, 0, 4, 4) /\
  (MaxRectsBin._overlaps (0, 0, 4, 4) (3, 3, 2, 2) = true <->
   exists px py, covers (0, 0, 4, 4) px py /\ covers (3, 3, 2, 2) px py).
Proof.
  apply (overlaps_shares_cell (0, 0, 4, 4) (3, 3, 2, 2));
    unfold positive_size; cbn; lia.
Defined.

Lemma Inside_covers a b px py : Inside a b -> covers a px py -> covers b px py.
Proof. unfold Inside, covers. lia. Qed.

Lemma Disjoint_covers a b px py :
  Disjoint a b -> covers a px py -> ~ covers b px py.
Proof. unfold Disjoint, covers. lia. Qed.

(** The strips of [_split] reach every cell of [free] outside [used]. *)
Lemma split_reaches free used px py :
  covers free px py -> ~ covers used px py ->
  exists s, In s (MaxRectsBin._split free used) /\ covers s px py.
Proof.
  intros Hf Hu.
  destruct free as [[[fx fy] fw] fh], used as [[[ux uy] uw] uh].
  unfold covers in *. cbn [rx ry rw rh] in *.
  destruct (Z_lt_le_dec px ux) as [L|L].
  { exists (fx, fy, ux - fx, fh). split; [|cbn; lia].
    apply in_split. left. cbn. split; [lia | reflexivity]. }
  destruct (Z_lt_le_dec px (ux + uw)) as [R|R].
  2:{ exists (ux + uw, fy, (fx + fw) - (ux + uw), fh). split; [|cbn; lia].
      apply in_split. right; left. cbn. split; [lia | reflexivity]. }
  destruct (Z_lt_le_dec py uy) as [T|T].
  { exists (fx, fy, fw, uy - fy). split; [|cbn; lia].
    apply in_split. right; right; left. cbn. split; [lia | reflexivity]. }
  exists (fx, uy + uh, fw, (fy + fh) - (uy + uh)). split; [|cbn; lia].
  apply in_split. right; right; right. cbn. split; [lia | reflexivity].
Qed.

(** X2.  When [free] overlaps [used], the strips that [_split] returns
    cover exactly the cells of [free] that are not cells of [used]:
    nothing of the remainder is lost and nothing of [used] is kept. *)
Theorem split_exact_remainder (free used : Rect) (px py : Z) :
  MaxRectsBin._overlaps free used = true ->
  ((exists s, In s (MaxRectsBin._split free used) /\ covers s px py) <->
   covers free px py /\ ~ covers used px py).
Proof.
  intros Ho. split.
  - intros (s & Hs & Hc). split.
    + eapply Inside_covers; [eapply split_Inside|]; eauto.
    + eapply Disjoint_covers; [eapply split_Disjoint|]; eauto.
  - intros [Hf Hu]. now apply split_reaches.
Qed.

Lemma split_exact_remainder_witness :
  (exists s, In s (MaxRectsBin._split (0, 0, 10, 10) (0, 0, 3, 3)) /\
             covers s 5 1) <->
  covers (0, 0, 10, 10) 5 1 /\ ~ covers (0, 0, 3, 3) 5 1.
Proof.
  apply (split_exact_remainder (0, 0, 10, 10) (0, 0, 3, 3) 5 1). reflexivity.
Defined.

Lemma Antichain_index l i j a b :
  Antichain l -> i <> j ->
  nth_error l i = Some a -> nth_error l j = Some b -> ~ Inside a b.
Proof.
  intros [Hnd HA] Hij Hi Hj Hab.
  assert (a = b) as <- by (apply HA; eauto using nth_error_In).
  apply Hij. eapply NoDup_same_index; eauto.
Qed.

(** X3.  After [_prune], and so after every successful [place] on any
    bin, no entry of the free list lies inside an entry at another
    position; in particular no entry is repeated. *)
Theorem free_list_never_nested :
  (forall l i j a b, i <> j ->
     nth_error (MaxRectsBin._prune l) i = Some a ->
     nth_error (MaxRectsBin._prune l) j = Some b -> ~ Inside a b) /\
  (forall bin w h x y bin' i j a b,
     MaxRectsBin.place bin w h = (Some (x, y), bin') -> i <> j ->
     nth_error (MaxRectsBin.free_rects bin') i = Some a ->
     nth_error (MaxRectsBin.free_rects bin') j = Some b -> ~ Inside a b).
Proof.
  split.
  - intros l i j a b Hij. apply Antichain_index; [apply prune_Antichain | exact Hij].
  - intros bin w h x y bin' i j a b E Hij.
    apply place_Some in E as (? & ? & _ & _ & _ & ->). cbn.
    apply Antichain_index; [apply prune_Antichain | exact Hij].
Qed.

Lemma free_list_never_nested_witness :
  ~ Inside (0, 3, 3, 7) (0, 7, 10, 3).
Proof.
  destruct free_list_never_nested as [_ Hplace].
  apply (Hplace (MaxRectsBin.mk 10 10 [(3, 0, 7, 10); (0, 3, 10, 7)])
                7 7 3 0
                (MaxRectsBin.mk 10 10 [(0, 3, 3, 7); (0, 7, 10, 3)])
                0%nat 1%nat).
  - reflexivity.
  - discriminate.
  - reflexivity.
  - reflexivity.
Defined.

Lemma filter_all {A : Type} (f : A -> bool) l :
  (forall x, In x l -> f x = true) -> filter f l = l.
Proof.
  induction l as [|x l IH]; intros H; cbn; [reflexivity|].
  rewrite (H x (or_introl eq_refl)), IH; [reflexivity|].
  intros y Hy. apply H. now right.
Qed.

Lemma map_snd_combine_seq {A : Type} (l : list A) s :
  map snd (combine (seq s (length l)) l) = l.
Proof.
  revert s. induction l as [|x l IH]; intros s; cbn; [reflexivity|].
  now rewrite IH.
Qed.

(** On an antichain [_prune] removes nothing. *)
Lemma prune_Antichain_id l : Antichain l -> MaxRectsBin._prune l = l.
Proof.
  intros HA. unfold MaxRectsBin._prune. rewrite filter_all.
  - apply map_snd_combine_seq.
  - intros [i a] Hi%in_enumerate. apply negb_true_iff.
    destruct (MaxRectsBin.contained l i a) eqn:C; [|reflexivity]. exfalso.
    apply contained_true in C as (j & b & Hji & Hj & Hab).
    eapply (Antichain_index l i j a b); eauto.
Qed.

(** X4.  [_prune] is idempotent: pruning a pruned list changes nothing. *)
Theorem prune_idempotent (l : list Rect) :
  MaxRectsBin._prune (MaxRectsBin._prune l) = MaxRectsBin._prune l.
Proof. apply prune_Antichain_id, prune_Antichain. Qed.

Lemma pieces_reach used fr px py :
  covers fr px py -> ~ covers used px py ->
  exists s, In s (MaxRectsBin.pieces used fr) /\ covers s px py.
Proof.
  intros Hf Hu. unfold MaxRectsBin.pieces.
  destruct (MaxRectsBin._overlaps fr used).
  - now apply split_reaches.
  - exists fr. split; [now left | assumption].
Qed.

(** The cells that a successful [place] leaves free. *)
Lemma place_free_cells (b b' : MaxRectsBin.t) (w h x y px py : Z) :
  Antichain (MaxRectsBin.free_rects b) ->
  MaxRectsBin.place b w h = (Some (x, y), b') ->
  ((exists r, In r (MaxRectsBin.free_rects b') /\ covers r px py) <->
   (exists r, In r (MaxRectsBin.free_rects b) /\ covers r px py) /\
   ~ covers (x, y, w, h) px py).
Proof.
  intros HA E. split.
  - intros (r & Hr & Hc).
    destruct (in_placed_free _ _ _ _ _ _ _ E Hr) as (fr & Hfr & Hp). split.
    + exists fr. split; [assumption|].
      eapply Inside_covers; [eapply pieces_Inside|]; eauto.
    + eapply Disjoint_covers; [eapply pieces_Disjoint|]; eauto.
  - intros [(fr & Hfr & Hc) Hu].
    destruct (pieces_reach (x, y, w, h) fr px py Hc Hu) as (s & Hs & Hsc).
    assert (In s (MaxRectsBin.split_free (MaxRectsBin.free_rects b) (x, y, w, h)))
      as Hin by (apply in_split_free; eauto).
    destruct (prune_cover _ s (split_free_NoDup _ (x, y, w, h) HA) Hin)
      as (c & Hc' & Hsc').
    exists c. split.
    + apply place_Some in E as (? & ? & _ & _ & _ & ->). exact Hc'.
    + eapply Inside_covers; eauto.
Qed.

(** X5.  A successful [place] on a free list that is an antichain takes
    away exactly the placed rectangle: a cell is free afterwards if and
    only if it was free before and is not a cell of the placed
    rectangle. *)
Theorem place_frees_exactly (b b' : MaxRectsBin.t) (w h x y px py : Z) :
  Antichain (MaxRectsBin.free_rects b) ->
  MaxRectsBin.place b w h = (Some (x, y), b') ->
  ((exists r, In r (MaxRectsBin.free_rects b') /\ covers r px py) <->
   (exists r, In r (MaxRectsBin.free_rects b) /\ covers r px py) /\
   ~ covers (x, y, w, h) px py).
Proof. apply place_free_cells. Qed.

Lemma place_frees_exactly_witness :
  (exists r,
      In r (MaxRectsBin.free_rects
              (snd (MaxRectsBin.place (MaxRectsBin.__init__ 10 10) 3 3))) /\
      covers r 5 5) <->
  (exists r, In r (MaxRectsBin.free_rects (MaxRectsBin.__init__ 10 10)) /\
             covers r 5 5) /\
  ~ covers (0, 0, 3, 3) 5 5.
Proof.
  apply (place_frees_exactly (MaxRectsBin.__init__ 10 10)
           (snd (MaxRectsBin.place (MaxRectsBin.__init__ 10 10) 3 3))
           3 3 0 0 5 5).
  - apply Antichain_init.
  - reflexivity.
Defined.

Lemma packed_bin_Antichain b rs :
  packed_bin b rs -> Antichain (MaxRectsBin.free_rects b).
Proof.
  induction 1 as [W H | b rs w h x y b' _ IH E].
  - apply Antichain_init.
  - pose proof (Antichain_place b w h IH) as HA. now rewrite E in HA.
Qed.

(** X6.  In a bin filled by successive calls of [place], the free list
    is exactly the unoccupied area: a cell of the bin lies in some free
    rectangle if and only if it lies in none of the rectangles placed so
    far. *)
Theorem free_is_unoccupied (b : MaxRectsBin.t) (rs : list Rect) (px py : Z) :
  packed_bin b rs ->
  0 <= px < MaxRectsBin.width b -> 0 <= py < MaxRectsBin.height b ->
  ((exists fr, In fr (MaxRectsBin.free_rects b) /\ covers fr px py) <->
   ~ exists r, In r rs /\ covers r px py).
Proof.
  induction 1 as [W H | b rs w h x y b' Hb IH E]; intros Hx Hy.
  - cbn in *. split.
    + intros _ (r & [] & _).
    + intros _. exists (0, 0, W, H). split; [now left|].
      unfold covers. cbn. lia.
  - pose proof (place_size b w h) as [EW EH]. rewrite E in EW, EH. cbn in EW, EH.
    rewrite EW in Hx. rewrite EH in Hy. specialize (IH Hx Hy).
    rewrite (place_free_cells b b' w h x y px py
               (packed_bin_Antichain _ _ Hb) E).
    split.
    + intros [Hfree Hu] (r & [Hr|[<-|[]]]%in_app_or & Hc).
      * apply IH in Hfree. apply Hfree. eauto.
      * contradiction.
    + intros Hno. split.
      * apply IH. intros (r & Hr & Hc). apply Hno. exists r.
        split; [apply in_or_app; now left | assumption].
      * intros Hc. apply Hno. exists (x, y, w, h).
        split; [apply in_or_app; right; now left | assumption].
Qed.

Lemma free_is_unoccupied_witness :
  (exists fr,
      In fr (MaxRectsBin.free_rects
               (snd (MaxRectsBin.place (MaxRectsBin.__init__ 10 10) 3 3))) /\
      covers fr 1 1) <->
  ~ exists r, In r ([] ++ [(0, 0, 3, 3)]) /\ covers r 1 1.
Proof.
  apply (free_is_unoccupied
           (snd (MaxRectsBin.place (MaxRectsBin.__init__ 10 10) 3 3))
           ([] ++ [(0, 0, 3, 3)]) 1 1).
  - apply (packed_place (MaxRectsBin.__init__ 10 10) [] 3 3 0 0).
    + apply packed_init.
    + reflexivity.
  - cbn. lia.
  - cbn. lia.
Defined.

Lemma split_free_length l used :
  (length (MaxRectsBin.split_free l used) <= 4 * length l)%nat.
Proof.
  induction l as [|fr l IH]; cbn [MaxRectsBin.split_free flat_map length];
    [lia|].
  rewrite length_app. fold (MaxRectsBin.split_free l used).
  assert (length (MaxRectsBin.pieces used fr) <= 4)%nat.
  { unfold MaxRectsBin.pieces. destruct (MaxRectsBin._overlaps fr used).
    - apply split_length.
    - cbn. lia. }
  lia.
Qed.

Lemma prune_length l : (length (MaxRectsBin._prune l) <= length l)%nat.
Proof.
  unfold MaxRectsBin._prune. rewrite length_map.
  etransitivity; [apply filter_length_le|].
  unfold enumerate. rewrite length_combine, length_seq. lia.
Qed.

(** X7.  One call of [place] makes the free list at most four times as
    long, and [_prune] never makes a list longer. *)
Theorem free_list_growth (b : MaxRectsBin.t) (w h : Z) (l : list Rect) :
  (length (MaxRectsBin.free_rects (snd (MaxRectsBin.place b w h)))
   <= 4 * length (MaxRectsBin.free_rects b))%nat /\
  (length (MaxRectsBin._prune l) <= length l)%nat.
Proof.
  split; [|apply prune_length].
  destruct (MaxRectsBin.place b w h) as [[[x y]|] b'] eqn:E; cbn [snd].
  - apply place_Some in E as (? & ? & _ & _ & _ & ->). cbn.
    etransitivity; [apply prune_length | apply split_free_length].
  - apply place_None in E as [-> _]. lia.
Qed.

(** X18.  A request wider or higher than the bin is refused: under the
    invariant of the free list [place] returns [None] and leaves the bin
    as it was. *)
Theorem place_refuses_oversize (b : MaxRectsBin.t) (w h : Z) :
  free_ok b ->
  MaxRectsBin.width b < w \/ MaxRectsBin.height b < h ->
  MaxRectsBin.place b w h = (None, b).
Proof.
  intros Hok Hbig.
  destruct (MaxRectsBin.place b w h) as [[[x y]|] b'] eqn:E.
  - exfalso. apply place_Some in E as (best & i & (Hi & Hf & _) & _).
    unfold free_ok in Hok. rewrite Forall_forall in Hok.
    destruct (Hok best (nth_error_In _ _ Hi)) as [_ Hwin].
    unfold fits, within in *. lia.
  - apply place_None in E as [-> _]. reflexivity.
Qed.

Lemma place_refuses_oversize_witness :
  MaxRectsBin.place (MaxRectsBin.__init__ 10 10) 11 2 =
  (None, MaxRectsBin.__init__ 10 10).
Proof.
  apply (place_refuses_oversize (MaxRectsBin.__init__ 10 10) 11 2).
  - apply free_ok_init; lia.
  - left. cbn. lia.
Defined.

(* ================================================================== *)
(** ** Further properties of pack_rectangles *)

Section MorePacking.

Context {Image : Type}.
Implicit Types (imgs items : list (Item Image)) (placed : list (Placement Image)).

(** X8.  One attempt cannot fail in a bin that is as wide as all the
    entries side by side and as high as the highest of them, when the
    widths are positive: every entry is placed. *)
Theorem attempt_succeeds_when_wide items (W H : Z) :
  (forall t, In t items -> 0 < item_w t /\ item_h t <= H) ->
  py_sum (map item_w items) <= W ->
  exists result,
    attempt (MaxRectsBin.__init__ W H) items [] = Some result /\
    length result = length items.
Proof.
  intros Hit HW.
  destruct (attempt_total items (MaxRectsBin.__init__ W H) [] 0)
    as [result Hr]; cbn; auto using right_margin_init.
  - apply (Antichain_init W H).
  - exists result. split; [assumption|].
    assert (forall its b placed res,
               attempt (Image := Image) b its placed = Some res ->
               length res = (length placed + length its)%nat) as Hlen.
    { induction its as [|[[[n im] w] h] rest IH]; intros b placed res; cbn.
      - intros [= <-]. lia.
      - destruct (MaxRectsBin.place b w h) as [[[x y]|] b']; [|discriminate].
        intros Hres%IH. rewrite length_app in Hres. cbn in Hres. lia. }
    apply Hlen in Hr. cbn in Hr. exact Hr.
Qed.

(** X9.  When [pack_rectangles] returns, the placements are the input
    entries, each once and with its own name, image, width and height:
    the entries carried by the placements are a permutation of the input,
    so nothing is dropped, repeated or resized. *)
Theorem pack_rectangles_complete fuel imgs placed final_w final_h :
  pack_rectangles fuel imgs = Ok (placed, final_w, final_h) ->
  Permutation (map p_item placed) imgs /\ length placed = length imgs.
Proof.
  intros E%returned_items.
  assert (Permutation (map p_item placed) imgs) as HP
    by (rewrite E; apply sorted_reverse_Permutation).
  split; [exact HP|].
  apply Permutation_length in HP. now rewrite length_map in HP.
Qed.

Lemma insert_desc_stable {A : Type} (key : A -> Z) (k : Z) x l :
  filter (fun t => key t =? k) (insert_desc key x l) =
  filter (fun t => key t =? k) (x :: l).
Proof.
  induction l as [|y l IH]; [reflexivity|]. cbn [insert_desc].
  destruct (key x <? key y) eqn:E; [|reflexivity].
  cbn [filter] in *. rewrite IH.
  destruct (key x =? k) eqn:Ex, (key y =? k) eqn:Ey; try reflexivity.
  apply Z.eqb_eq in Ex, Ey. apply Z.ltb_lt in E. lia.
Qed.

Lemma sorted_reverse_stable_filter {A : Type} (key : A -> Z) (k : Z) l :
  filter (fun t => key t =? k) (sorted_reverse key l) =
  filter (fun t => key t =? k) l.
Proof.
  induction l as [|x l IH]; [reflexivity|]. cbn [sorted_reverse].
  rewrite insert_desc_stable. cbn [filter]. now rewrite IH.
Qed.

(** X10.  The placements come back in the order of the heuristic: the
    larger side [max(w, h)] never increases along the list, and entries
    with the same larger side keep the order they had in the input. *)
Theorem pack_rectangles_order fuel imgs placed final_w final_h :
  pack_rectangles fuel imgs = Ok (placed, final_w, final_h) ->
  StronglySorted (fun s t => sort_key t <= sort_key s) (map p_item placed) /\
  forall k, filter (fun t => sort_key t =? k) (map p_item placed) =
            filter (fun t => sort_key t =? k) imgs.
Proof.
  intros ->%returned_items. split.
  - apply sorted_reverse_descending.
  - intros k. apply sorted_reverse_stable_filter.
Qed.

End MorePacking.

Section Sizes.

Context {Image : Type}.
Implicit Types (imgs : list (Item Image)) (placed : list (Placement Image)).

(** X11.  The first bin holds the widest entry across and the highest
    entry down, and, for a total area below [2^52] where the square root
    of the source is exact, its own area exceeds the total area of the
    entries. *)
Theorem initial_size_roomy imgs (W H : Z) :
  initial_size imgs = Ok (W, H) ->
  (forall t, In t imgs -> item_w t <= W /\ item_h t <= H) /\
  (py_sum (map (fun t => item_w t * item_h t) imgs) < 2 ^ 52 ->
   py_sum (map (fun t => item_w t * item_h t) imgs) < W * H).
Proof.
  intros E. split; [now apply initial_size_Ok in E|]. intros Hsmall.
  unfold initial_size in E.
  destruct (py_max (map item_w imgs)) as [mw| |]; cbn [bind] in E; try discriminate.
  destruct (py_max (map item_h imgs)) as [mh| |]; cbn [bind] in E; try discriminate.
  set (area := py_sum _) in *.
  destruct (int_sqrt_cases area) as [[Hn Er]|[[Hn Er]|[Hn (r & Er & _ & Hr)]]];
    rewrite Er in E; cbn [bind] in E; try discriminate.
  rewrite (Hr Hsmall) in E. injection E as <- <-.
  pose proof (Z.sqrt_spec area (proj1 Hn)) as Hs. cbn zeta in Hs.
  pose proof (Z.sqrt_nonneg area).
  assert (Z.sqrt area + 1 <= Z.max (Z.sqrt area + 1) mw) by lia.
  assert (Z.sqrt area + 1 <= Z.max (Z.sqrt area + 1) mh) by lia.
  unfold Z.succ in Hs. nia.
Qed.

(** X12.  A single entry of positive size, of an area a float can hold,
    is packed by the first attempt: it goes to the origin and the final
    size is its own size. *)
Theorem pack_rectangles_single (fuel : nat) (name : string) (im : Image)
        (w h : Z) :
  0 < w -> 0 < h -> w * h < float_limit ->
  pack_rectangles (S fuel) [(name, im, w, h)] =
  Ok ([(name, im, 0, 0, w, h)], w, h).
Proof.
  intros Hw Hh Ha. unfold pack_rectangles, initial_size.
  cbn [map item_w item_h py_max fold_left bind].
  replace (py_sum [w * h]) with (w * h) by (unfold py_sum; cbn; lia).
  destruct (int_sqrt_cases (w * h)) as [[Hn _]|[[Hn _]|[_ (r & -> & Hroot & _)]]];
    [nia | nia |].
  cbn [bind sorted_reverse insert_desc pack_loop attempt].
  set (W := Z.max (r + 1) w).
  set (H := Z.max (r + 1) h).
  unfold MaxRectsBin.place, MaxRectsBin.best_fit, MaxRectsBin.__init__.
  cbn [MaxRectsBin.free_rects fold_left].
  unfold MaxRectsBin.best_step. cbn [rw rh].
  assert ((w <=? W) && (h <=? H) = true) as ->
    by (apply andb_true_iff; split; apply Z.leb_le; lia).
  cbn [rx ry app bind map p_x p_y p_w p_h py_max fold_left Z.add].
  reflexivity.
Qed.

(** X13.  The final size holds every entry: no input width exceeds
    [final_w] and no input height exceeds [final_h]. *)
Theorem final_size_holds_each fuel imgs placed final_w final_h :
  pack_rectangles fuel imgs = Ok (placed, final_w, final_h) ->
  forall t, In t imgs -> item_w t <= final_w /\ item_h t <= final_h.
Proof.
  intros E t Ht.
  pose proof (returned_items _ _ _ _ _ E) as Hitems.
  apply returned_placements in E as (_ & Hpos & Ew & Eh).
  apply py_max_Ok in Ew as [_ Hwub], Eh as [_ Hhub].
  assert (In t (map p_item placed)) as Hin.
  { rewrite Hitems.
    eapply Permutation_in; [symmetry; apply sorted_reverse_Permutation|].
    exact Ht. }
  apply in_map_iff in Hin as (p & <- & Hp).
  destruct (Hpos p Hp).
  pose proof (Hwub _ (in_map (fun p => p_x p + p_w p) _ _ Hp)).
  pose proof (Hhub _ (in_map (fun p => p_y p + p_h p) _ _ Hp)).
  destruct p as [[[[[n im] x] y] w] h]. cbn in *. lia.
Qed.

End Sizes.

Lemma initial_size_roomy_witness :
  (forall t, In t [("A"%string, tt, 10, 10); ("B"%string, tt, 20, 5);
                   ("C"%string, tt, 5, 20)] ->
             item_w t <= 20 /\ item_h t <= 20) /\
  (py_sum (map (fun t => item_w t * item_h t)
             [("A"%string, tt, 10, 10); ("B"%string, tt, 20, 5);
              ("C"%string, tt, 5, 20)]) < 2 ^ 52 ->
   py_sum (map (fun t => item_w t * item_h t)
             [("A"%string, tt, 10, 10); ("B"%string, tt, 20, 5);
              ("C"%string, tt, 5, 20)]) < 20 * 20).
Proof.
  apply (initial_size_roomy
           [("A"%string, tt, 10, 10); ("B"%string, tt, 20, 5);
            ("C"%string, tt, 5, 20)] 20 20).
  reflexivity.
Defined.

Lemma pack_rectangles_single_witness :
  pack_rectangles 1 [("A"%string, tt, 50, 50)] =
  Ok ([("A"%string, tt, 0, 0, 50, 50)], 50, 50).
Proof.
  apply (pack_rectangles_single 0 "A"%string tt 50 50); [lia | lia | reflexivity].
Defined.

Lemma final_size_holds_each_witness :
  item_w ("B"%string, tt, 20, 5) <= 35 /\ item_h ("B"%string, tt, 20, 5) <= 20.
Proof.
  apply (final_size_holds_each 2
           [("A"%string, tt, 10, 10); ("B"%string, tt, 20, 5);
            ("C"%string, tt, 5, 20)]
           [("B"%string, tt, 0, 0, 20, 5); ("C"%string, tt, 20, 0, 5, 20);
            ("A"%string, tt, 25, 0, 10, 10)] 35 20).
  - reflexivity.
  - right. now left.
Defined.

Lemma attempt_succeeds_when_wide_witness :
  exists result,
    attempt (MaxRectsBin.__init__ 9 4)
      [("A"%string, tt, 2, 4); ("B"%string, tt, 3, 1); ("C"%string, tt, 4, 2)] []
    = Some result /\
    length result =
    length [("A"%string, tt, 2, 4); ("B"%string, tt, 3, 1); ("C"%string, tt, 4, 2)].
Proof.
  apply (attempt_succeeds_when_wide
           [("A"%string, tt, 2, 4); ("B"%string, tt, 3, 1); ("C"%string, tt, 4, 2)]
           9 4).
  - intros t [<-|[<-|[<-|[]]]]; cbn; lia.
  - cbn. lia.
Defined.

Lemma pack_rectangles_complete_witness :
  Permutation
    (map p_item [("B"%string, tt, 0, 0, 20, 5); ("C"%string, tt, 20, 0, 5, 20);
                 ("A"%string, tt, 25, 0, 10, 10)])
    [("A"%string, tt, 10, 10); ("B"%string, tt, 20, 5); ("C"%string, tt, 5, 20)] /\
  length [("B"%string, tt, 0, 0, 20, 5); ("C"%string, tt, 20, 0, 5, 20);
          ("A"%string, tt, 25, 0, 10, 10)] =
  length [("A"%string, tt, 10, 10); ("B"%string, tt, 20, 5); ("C"%string, tt, 5, 20)].
Proof.
  apply (pack_rectangles_complete 2
           [("A"%string, tt, 10, 10); ("B"%string, tt, 20, 5); ("C"%string, tt, 5, 20)]
           [("B"%string, tt, 0, 0, 20, 5); ("C"%string, tt, 20, 0, 5, 20);
            ("A"%string, tt, 25, 0, 10, 10)] 35 20).
  reflexivity.
Defined.

Lemma pack_rectangles_order_witness :
  StronglySorted (fun s t : Item unit => sort_key t <= sort_key s)
    (map p_item [("B"%string, tt, 0, 0, 20, 5); ("C"%string, tt, 20, 0, 5, 20);
                 ("A"%string, tt, 25, 0, 10, 10)]) /\
  forall k,
    filter (fun t => sort_key t =? k)
      (map p_item [("B"%string, tt, 0, 0, 20, 5); ("C"%string, tt, 20, 0, 5, 20);
                   ("A"%string, tt, 25, 0, 10, 10)]) =
    filter (fun t => sort_key t =? k)
      [("A"%string, tt, 10, 10); ("B"%string, tt, 20, 5); ("C"%string, tt, 5, 20)].
Proof.
  apply (pack_rectangles_order 2
           [("A"%string, tt, 10, 10); ("B"%string, tt, 20, 5); ("C"%string, tt, 5, 20)]
           [("B"%string, tt, 0, 0, 20, 5); ("C"%string, tt, 20, 0, 5, 20);
            ("A"%string, tt, 25, 0, 10, 10)] 35 20).
  reflexivity.
Defined.

(* ================================================================== *)
(** ** The area of a packing *)

Lemma in_cells x y w h i j :
  In (i, j) (cells x y w h) <-> (x <= i < x + w /\ y <= j < y + h)%nat.
Proof. unfold cells. now rewrite in_prod_iff, !in_seq. Qed.

Lemma NoDup_list_prod {A B : Type} (l : list A) (l' : list B) :
  NoDup l -> NoDup l' -> NoDup (list_prod l l').
Proof.
  intros Hl Hl'. induction Hl as [|x l Hx Hl IH]; cbn; [constructor|].
  apply NoDup_app.
  - apply NoDup_map_NoDup_ForallPairs; [|assumption].
    intros a b _ _. congruence.
  - exact IH.
  - intros [a b] (b' & E & _)%in_map_iff Hin. inversion E; subst.
    apply in_prod_iff in Hin as [Hin _]. contradiction.
Qed.

Lemma cells_NoDup x y w h : NoDup (cells x y w h).
Proof. apply NoDup_list_prod; apply seq_NoDup. Qed.

Lemma cells_length x y w h : length (cells x y w h) = (w * h)%nat.
Proof. unfold cells. now rewrite length_prod, !length_seq. Qed.

Lemma in_rect_cells r i j :
  0 <= rx r -> 0 <= ry r ->
  (In (i, j) (rect_cells r) <-> covers r (Z.of_nat i) (Z.of_nat j)).
Proof.
  intros Hx Hy. unfold rect_cells, covers. rewrite in_cells. lia.
Qed.

Lemma pairwise_disjoint_cons r rs :
  pairwise_disjoint (r :: rs) ->
  (forall r', In r' rs -> Disjoint r r') /\ pairwise_disjoint rs.
Proof.
  intros H. split.
  - intros r' [k Hk]%In_nth_error. apply (H 0%nat (S k)); auto.
  - intros i j a b Hij Hi Hj. apply (H (S i) (S j)); auto.
Qed.

Lemma all_cells_NoDup rs :
  (forall r, In r rs -> 0 <= rx r /\ 0 <= ry r) ->
  pairwise_disjoint rs -> NoDup (flat_map rect_cells rs).
Proof.
  induction rs as [|r rs IH]; intros Hpos Hpd; cbn [flat_map]; [constructor|].
  apply pairwise_disjoint_cons in Hpd as [Hr Hrs].
  apply NoDup_app.
  - apply cells_NoDup.
  - apply IH; [|assumption]. intros r' Hr'. apply Hpos. now right.
  - intros [i j] Hin (r' & Hr' & Hin')%in_flat_map.
    destruct (Hpos r (or_introl eq_refl)), (Hpos r' (or_intror Hr')).
    apply in_rect_cells in Hin, Hin'; [|assumption..].
    eapply Disjoint_covers; eauto.
Qed.

Lemma all_cells_in_box rs W H :
  (forall r, In r rs -> within W H r) ->
  incl (flat_map rect_cells rs) (cells 0 0 (Z.to_nat W) (Z.to_nat H)).
Proof.
  intros Hin [i j] (r & Hr & Hc)%in_flat_map.
  destruct (Hin r Hr) as (Hx & Hy & HW & HH).
  apply in_rect_cells in Hc; [|assumption..].
  apply in_cells. unfold covers in Hc. lia.
Qed.

Lemma all_cells_length rs :
  (forall r, In r rs -> positive_size r) ->
  Z.of_nat (length (flat_map rect_cells rs)) =
  py_sum (map (fun r => rw r * rh r) rs).
Proof.
  induction rs as [|r rs IH]; intros Hpos; [reflexivity|].
  cbn [flat_map map]. rewrite length_app, py_sum_cons, Nat2Z.inj_add, IH.
  - unfold rect_cells. rewrite cells_length.
    destruct (Hpos r (or_introl eq_refl)). nia.
  - intros r' Hr'. apply Hpos. now right.
Qed.

(** Rectangles of positive size that are pairwise apart inside a box
    have a total area no larger than the box. *)
Lemma disjoint_area_bound rs W H :
  0 <= W -> 0 <= H ->
  (forall r, In r rs -> positive_size r /\ within W H r) ->
  pairwise_disjoint rs ->
  py_sum (map (fun r => rw r * rh r) rs) <= W * H.
Proof.
  intros HW HH Hin Hpd.
  rewrite <- all_cells_length by (intros r Hr; now apply Hin).
  assert (length (flat_map rect_cells rs)
          <= length (cells 0 0 (Z.to_nat W) (Z.to_nat H)))%nat as Hle.
  { apply NoDup_incl_length.
    - apply all_cells_NoDup; [|assumption].
      intros r Hr. destruct (Hin r Hr) as [_ (? & ? & _)]. auto.
    - apply all_cells_in_box. intros r Hr. now apply Hin. }
  rewrite cells_length in Hle. nia.
Qed.

Lemma py_sum_perm l l' : Permutation l l' -> py_sum l = py_sum l'.
Proof. induction 1; rewrite ?py_sum_cons in *; lia. Qed.

(** X14.  For entries of positive size the final bounding box is at
    least as large as the entries together: the total area of the input
    does not exceed [final_w * final_h]. *)
Theorem final_area_bound {Image : Type} fuel (imgs : list (Item Image))
        placed final_w final_h :
  (forall t, In t imgs -> 0 < item_w t /\ 0 < item_h t) ->
  pack_rectangles fuel imgs = Ok (placed, final_w, final_h) ->
  py_sum (map (fun t => item_w t * item_h t) imgs) <= final_w * final_h.
Proof.
  intros Hpos E.
  pose proof (returned_items _ _ _ _ _ E) as Hitems.
  pose proof E as (Hpd & Hxy & Ew & Eh)%returned_placements.
  apply py_max_Ok in Ew as [Hwin Hwub], Eh as [Hhin Hhub].
  assert (Permutation (map p_item placed) imgs) as HP
    by (rewrite Hitems; apply sorted_reverse_Permutation).
  assert (forall p, In p placed ->
            positive_size (p_rect p) /\ within final_w final_h (p_rect p)) as Hok.
  { intros p Hp. destruct (Hxy p Hp).
    pose proof (Hwub _ (in_map (fun p => p_x p + p_w p) _ _ Hp)).
    pose proof (Hhub _ (in_map (fun p => p_y p + p_h p) _ _ Hp)).
    assert (In (p_item p) imgs) as Hi
      by (eapply Permutation_in; [exact HP | now apply in_map]).
    apply Hpos in Hi.
    destruct p as [[[[[n im] x] y] w] h].
    unfold positive_size, within, p_rect. cbn in *. lia. }
  assert (0 <= final_w /\ 0 <= final_h) as [HW HH].
  { apply in_map_iff in Hwin as (pw & <- & Hpw).
    apply in_map_iff in Hhin as (ph & <- & Hph).
    destruct (Hok pw Hpw) as [[? _] _], (Hok ph Hph) as [[_ ?] _].
    destruct (Hxy pw Hpw), (Hxy ph Hph).
    unfold p_rect in *. cbn [rw rh] in *. lia. }
  assert (py_sum (map (fun t => item_w t * item_h t) imgs) =
          py_sum (map (fun r => rw r * rh r) (map p_rect placed))) as ->.
  { rewrite <- (py_sum_perm _ _ (Permutation_map _ HP)), !map_map.
    f_equal. apply map_ext. now intros [[[[[n im] x] y] w] h]. }
  apply disjoint_area_bound; auto.
  intros r (p & <- & Hp)%in_map_iff. now apply Hok.
Qed.

Lemma final_area_bound_witness :
  py_sum (map (fun t => item_w t * item_h t)
            [("A"%string, tt, 10, 10); ("B"%string, tt, 20, 5);
             ("C"%string, tt, 5, 20)]) <= 35 * 20.
Proof.
  apply (final_area_bound 2
           [("A"%string, tt, 10, 10); ("B"%string, tt, 20, 5);
            ("C"%string, tt, 5, 20)]
           [("B"%string, tt, 0, 0, 20, 5); ("C"%string, tt, 20, 0, 5, 20);
            ("A"%string, tt, 25, 0, 10, 10)]).
  - intros t [<-|[<-|[<-|[]]]]; cbn; lia.
  - reflexivity.
Defined.

(* ================================================================== *)
(** ** make_sprite *)

Section SpriteProperties.

Context {Image Canvas Color : Type}.
Variable Image_new : Z -> Z -> Color -> Canvas.
Variable resize : Image -> Z -> Z -> Image.
Variable paste : Canvas -> Image -> Z -> Z -> Image -> Canvas.

Lemma make_sprite_fold upscale (packed : list (Placement Image)) :
  forall sprite positions,
    snd (fold_left (make_sprite_step resize paste upscale) packed
           (sprite, positions)) =
    positions ++ map (fun p => (p_name p, - p_x p, - p_y p)) packed.
Proof.
  induction packed as [|[[[[[name im] x] y] w] h] rest IH];
    intros sprite positions; cbn [fold_left map].
  - now rewrite app_nil_r.
  - cbn [make_sprite_step]. rewrite IH, <- app_assoc. reflexivity.
Qed.

Lemma make_sprite_positions (packed : list (Placement Image))
      sprite_w sprite_h upscale bg :
  snd (make_sprite Image_new resize paste packed sprite_w sprite_h upscale bg) =
  map (fun p => (p_name p, - p_x p, - p_y p)) packed.
Proof. unfold make_sprite. now rewrite make_sprite_fold. Qed.

(** X15.  The positions that [make_sprite] returns for the layout of
    [pack_rectangles] are the placements in order, each with its name and
    its negated coordinates, whatever the scale factor and background;
    the names are those of the input, and for entries of positive size
    every offset lies in [(-final_w, 0]] across and [(-final_h, 0]]
    down. *)
Theorem sprite_offsets_in_sheet fuel (imgs : list (Item Image))
        placed final_w final_h (upscale : Z) (bg : Color) :
  (forall t, In t imgs -> 0 < item_w t /\ 0 < item_h t) ->
  pack_rectangles fuel imgs = Ok (placed, final_w, final_h) ->
  let positions :=
    snd (make_sprite Image_new resize paste placed final_w final_h upscale bg) in
  positions = map (fun p => (p_name p, - p_x p, - p_y p)) placed /\
  Permutation (map (fun pos => fst (fst pos)) positions) (map item_name imgs) /\
  forall name ox oy, In (name, ox, oy) positions ->
    - final_w < ox <= 0 /\ - final_h < oy <= 0.
Proof.
  intros Hpos E positions.
  assert (positions = map (fun p => (p_name p, - p_x p, - p_y p)) placed) as Hp
    by apply make_sprite_positions.
  split; [exact Hp|]. rewrite Hp. clear positions Hp.
  pose proof (returned_items _ _ _ _ _ E) as Hitems.
  assert (Permutation (map p_item placed) imgs) as HP
    by (rewrite Hitems; apply sorted_reverse_Permutation).
  apply returned_placements in E as (_ & Hxy & Ew & Eh).
  apply py_max_Ok in Ew as [_ Hwub], Eh as [_ Hhub].
  split.
  - rewrite map_map. cbn [fst].
    rewrite <- (Permutation_map item_name HP), map_map.
    erewrite map_ext; [reflexivity|]. now intros [[[[[n im] x] y] w] h].
  - intros name ox oy (p & Ep & Hp)%in_map_iff.
    injection Ep as <- <- <-. destruct (Hxy p Hp).
    pose proof (Hwub _ (in_map (fun p => p_x p + p_w p) _ _ Hp)).
    pose proof (Hhub _ (in_map (fun p => p_y p + p_h p) _ _ Hp)).
    assert (In (p_item p) imgs) as Hi
      by (eapply Permutation_in; [exact HP | now apply in_map]).
    apply Hpos in Hi. destruct p as [[[[[n im] x] y] w] h]. cbn in *. lia.
Qed.

End SpriteProperties.

Lemma sprite_offsets_in_sheet_witness :
  snd (make_sprite (fun _ _ _ => tt) (fun im _ _ => im) (fun c _ _ _ _ => c)
         [("B"%string, tt, 0, 0, 20, 5); ("C"%string, tt, 20, 0, 5, 20);
          ("A"%string, tt, 25, 0, 10, 10)] 35 20 2 tt) =
  [("B"%string, 0, 0); ("C"%string, -20, 0); ("A"%string, -25, 0)].
Proof.
  destruct (sprite_offsets_in_sheet
              (fun (_ _ : Z) (_ : unit) => tt) (fun (im : unit) (_ _ : Z) => im)
              (fun (c : unit) (_ : unit) (_ _ : Z) (_ : unit) => c)
              2
              [("A"%string, tt, 10, 10); ("B"%string, tt, 20, 5);
               ("C"%string, tt, 5, 20)]
              [("B"%string, tt, 0, 0, 20, 5); ("C"%string, tt, 20, 0, 5, 20);
               ("A"%string, tt, 25, 0, 10, 10)] 35 20 2 tt) as (Hp & _).
  - intros t [<-|[<-|[<-|[]]]]; cbn; lia.
  - reflexivity.
  - exact Hp.
Defined.

(* ================================================================== *)
(** ** generate_css *)

Lemma string_app_assoc (a b c : string) :
  ((a ++ b) ++ c = a ++ (b ++ c))%string.
Proof. induction a as [|ch a IH]; cbn; [reflexivity | now rewrite IH]. Qed.

Lemma concat_snoc (sep : string) (l : list string) (a : string) :
  l <> [] ->
  String.concat sep (l ++ [a]) = (String.concat sep l ++ sep ++ a)%string.
Proof.
  induction l as [|x l IH]; intros Hne; [congruence|].
  destruct l as [|y l]; [reflexivity|].
  change (String.concat sep ((x :: y :: l) ++ [a]))
    with (x ++ sep ++ String.concat sep ((y :: l) ++ [a]))%string.
  rewrite IH by discriminate.
  change (String.concat sep (x :: y :: l))
    with (x ++ sep ++ String.concat sep (y :: l))%string.
  now rewrite !string_app_assoc.
Qed.

Lemma css_step_text (css : list string) (pos : string * Z * Z) :
  css <> [] ->
  String.concat LF (css_step css pos) =
  (String.concat LF css ++ css_rule_text pos)%string.
Proof.
  intros Hne. destruct pos as [[name x] y]. unfold css_step, css_rule_text.
  change (css ++ [(".icon-" ++ name ++ " {")%string;
                  ("  background-position: " ++ fmt_int x ++ "px " ++
                   fmt_int y ++ "px;")%string;
                  ("}" ++ LF)%string])
    with (css ++ [(".icon-" ++ name ++ " {")%string] ++
                 [("  background-position: " ++ fmt_int x ++ "px " ++
                   fmt_int y ++ "px;")%string] ++
                 [("}" ++ LF)%string]).
  rewrite !app_assoc.
  rewrite !concat_snoc
    by (intros F; repeat apply app_eq_nil in F as [F _]; congruence).
  now rewrite !string_app_assoc.
Qed.

Lemma css_step_nonempty css pos : css_step css pos <> [].
Proof.
  destruct pos as [[name x] y]. unfold css_step.
  intros F. apply app_eq_nil in F as [_ F]. discriminate.
Qed.

Lemma css_fold_text (positions : list (string * Z * Z)) :
  forall css, css <> [] ->
    String.concat LF (fold_left css_step positions css) =
    (String.concat LF css ++
     fold_right String.append EmptyString (map css_rule_text positions))%string.
Proof.
  induction positions as [|pos rest IH]; intros css Hne; cbn [fold_left map fold_right].
  - induction (String.concat LF css) as [|c s IHs]; cbn; [reflexivity|].
    now rewrite <- IHs.
  - rewrite IH by apply css_step_nonempty.
    rewrite css_step_text by assumption. now rewrite string_app_assoc.
Qed.

Lemma fold_right_append_app (l l' : list string) :
  fold_right String.append EmptyString (l ++ l') =
  (fold_right String.append EmptyString l ++
   fold_right String.append EmptyString l')%string.
Proof.
  induction l as [|x l IH]; cbn; [reflexivity|].
  now rewrite IH, string_app_assoc.
Qed.

(** X16.  The style sheet is the fixed preamble, which depends on the
    sizes and file names only, followed by one rule per position in
    order: a selector [.icon-NAME], its [background-position] with both
    offsets in pixels, and a closing brace.  So the sheet for more
    positions is the sheet for the first ones with the rules of the
    others appended. *)
Theorem generate_css_text (positions more : list (string * Z * Z))
        (sprite_w sprite_h max_w max_h : Z) (normal_name retina_name : string) :
  generate_css positions sprite_w sprite_h max_w max_h normal_name retina_name =
  (String.concat LF
     (css_head sprite_w sprite_h max_w max_h normal_name retina_name) ++
   fold_right String.append EmptyString (map css_rule_text positions))%string /\
  generate_css (positions ++ more) sprite_w sprite_h max_w max_h
               normal_name retina_name =
  (generate_css positions sprite_w sprite_h max_w max_h normal_name retina_name ++
   fold_right String.append EmptyString (map css_rule_text more))%string.
Proof.
  unfold generate_css, css_entries.
  rewrite !css_fold_text by discriminate.
  split; [reflexivity|].
  now rewrite map_app, fold_right_append_app, string_app_assoc.
Qed.

(** The sheet for one icon at the origin, written out. *)
Example generate_css_one_icon :
  generate_css [("home"%string, 0, -20)] 35 20 20 20
               "sprite.png"%string "sprite@2x.png"%string =
  (".sprite {" ++ LF ++
   "  background-image: url('sprite.png');" ++ LF ++
   "  background-repeat: no-repeat;" ++ LF ++
   "  display: inline-block;" ++ LF ++
   "  width: 20px;" ++ LF ++
   "  height: 20px;" ++ LF ++
   "}" ++ LF ++ LF ++
   ".retina {" ++ LF ++
   "  background-image: url('sprite@2x.png');" ++ LF ++
   "  background-size: 35px 20px;" ++ LF ++
   "}" ++ LF ++ LF ++
   ".icon-home {" ++ LF ++
   "  background-position: 0px -20px;" ++ LF ++
   "}" ++ LF)%string.
Proof. reflexivity. Qed.

(* ================================================================== *)
(** ** optimize_and_save: the choice of the encoding *)

(** X17.  [optimize_and_save] writes the shortest encoding it has: the
    chosen data are never longer than the true-colour bytes nor than the
    palette bytes when there are any; the palette encoding is chosen only
    when it is strictly shorter, and the true-colour one in every other
    case, ties included. *)
Theorem best_candidate_shortest (truecolor : list Byte.byte)
        (palette : option (list Byte.byte)) :
  (length (snd (best_candidate truecolor palette)) <= length truecolor)%nat /\
  (forall data, palette = Some data ->
     (length (snd (best_candidate truecolor palette)) <= length data)%nat) /\
  (best_candidate truecolor palette =
     match palette with
     | Some data =>
         if Nat.ltb (length data) (length truecolor)
         then ("palette"%string, data) else ("truecolor"%string, truecolor)
     | None => ("truecolor"%string, truecolor)
     end).
Proof.
  unfold best_candidate, candidates, min_by.
  destruct palette as [data|]; cbn [fold_left snd].
  - destruct (Nat.ltb (length data) (length truecolor)) eqn:E; cbn [snd].
    + apply Nat.ltb_lt in E. split; [lia|]. split; [|reflexivity].
      intros d [= <-]. lia.
    + apply Nat.ltb_ge in E. split; [lia|]. split; [|reflexivity].
      intros d [= <-]. lia.
  - split; [lia|]. split; [discriminate | reflexivity].
Qed.
